(** * Server.py: capture / pose / UDP loop

    A shallow embedding of [Server.py].  The script is one sequential loop:
    read a camera frame, run the pose estimator, remap every landmark to
    pixel space, send the flat coordinate list as one UDP datagram, throttle
    to the target frame rate, show the preview and poll the quit key.

    Python [float] is IEEE 754 binary64, embedded as Rocq's primitive
    [float].  Every call into OpenCV, MediaPipe, [socket] and [time] is an
    event of a trace; what the outside world answers to the calls of one
    iteration is an [Env] record. *)

From Stdlib Require Import ZArith List String Ascii Bool Lia.
From Stdlib.Strings Require Import Byte.
From Stdlib Require Import Floats QArith Qabs Qpower Lqa.
Import ListNotations.

Local Open Scope string_scope.
Local Open Scope Z_scope.

(** ** Python numbers *)

(** [float(n)] for a Python [int]: the correctly rounded binary64 value
    (round to nearest, ties to even), as [int.__float__] computes it.  Python
    raises [OverflowError] from 2^1024 on; array shapes never get there. *)
Definition float_of_int (n : Z) : float :=
  SF2Prim (binary_normalize prec emax n 0 false).

(** The arithmetic the mapper needs from the landmark coordinates.  The
    source is duck typed: [lm.x * w] and [h - lm.y * h] promote the [int]
    operand to the type of the coordinate. *)
Class Number (T : Type) : Type := {
  of_int : Z -> T;
  mul : T -> T -> T;
  sub : T -> T -> T;
  div : T -> T -> T
}.

(** What runs: binary64. *)
#[export] Instance float_Number : Number float := {
  of_int := float_of_int;
  mul := PrimFloat.mul;
  sub := PrimFloat.sub;
  div := PrimFloat.div
}.

(** ** Landmarks and the coordinate mapper (lines 66-72) *)

Record Landmark (T : Type) : Type := mkLandmark {
  lm_x : T;
  lm_y : T;
  lm_z : T
}.
Arguments mkLandmark {T} _ _ _.
Arguments lm_x {T} _.
Arguments lm_y {T} _.
Arguments lm_z {T} _.

Section Mapper.
Context {T : Type} `{Number T}.

(** [posX = lm.x * w] *)
Definition posX (lm : Landmark T) (w : Z) : T := mul (lm_x lm) (of_int w).

(** [posY = h - (lm.y * h)] *)
Definition posY (lm : Landmark T) (h : Z) : T :=
  sub (of_int h) (mul (lm_y lm) (of_int h)).

(** [posZ = lm.z * w] *)
Definition posZ (lm : Landmark T) (w : Z) : T := mul (lm_z lm) (of_int w).

(** [for lm in results.pose_landmarks.landmark: ... data.extend([posX, posY, posZ])] *)
Definition extract_landmarks (h w : Z) (landmarks : list (Landmark T))
    (data : list T) : list T :=
  fold_left (fun data lm => (data ++ [posX lm w; posY lm h; posZ lm w])%list)
            landmarks data.

(** The triple one landmark contributes. *)
Definition mapped_point (h w : Z) (lm : Landmark T) : list T :=
  [mul (lm_x lm) (of_int w);
   sub (of_int h) (mul (lm_y lm) (of_int h));
   mul (lm_z lm) (of_int w)].

(** The consumer's inverse transform.  It is not in [Server.py]; it is
    written from the specification: [x = posX / w], [y = (h - posY) / h],
    [z = posZ / w]. *)
Definition inverse_transform (h w : Z) (pX pY pZ : T) : Landmark T :=
  {| lm_x := div pX (of_int w);
     lm_y := div (sub (of_int h) pY) (of_int h);
     lm_z := div pZ (of_int w) |}.

(** Mapping one landmark, then inverting. *)
Definition round_trip (h w : Z) (lm : Landmark T) : Landmark T :=
  inverse_transform h w (posX lm w) (posY lm h) (posZ lm w).
End Mapper.

(** ** Python text *)

(** [str.encode(s)]: UTF-8.  A Rocq [string] is already a byte string. *)
Definition str_encode (s : string) : list byte := list_byte_of_string s.

Section ListRepr.
(** [repr] of the elements, a built-in of the host language. *)
Context {A : Type} (repr : A -> string).

(** [str(data)] for a list: the [repr] of the elements, separated by a
    comma and a space, between square brackets. *)
Definition str_list (data : list A) : string :=
  "[" ++ String.concat ", " (map repr data) ++ "]".
End ListRepr.

(** [repr] of a float with an integral value below 10^16 in magnitude: the
    decimal digits followed by [.0].  Python's [float.__repr__] agrees with
    this on those values; on the others it prints the shortest decimal that
    reads back as the same float, which is not modelled ([None]). *)
Definition digit_char (d : Z) : ascii := ascii_of_nat (48 + Z.to_nat d).

Fixpoint decimal_digits (fuel : nat) (n : Z) (acc : string) : string :=
  match fuel with
  | O => acc
  | S fuel' =>
      let acc' := String (digit_char (n mod 10)) acc in
      if n / 10 =? 0 then acc' else decimal_digits fuel' (n / 10) acc'
  end.

Definition str_nat (n : Z) : string := decimal_digits 20 n "".

Definition integral_value (m : positive) (e : Z) : option Z :=
  if 0 <=? e then Some (Z.pos m * 2 ^ e)
  else if (Z.pos m mod 2 ^ (- e)) =? 0 then Some (Z.pos m / 2 ^ (- e))
  else None.

Definition repr_integral (f : float) : option string :=
  match Prim2SF f with
  | S754_zero s => Some (if s then "-0.0" else "0.0")
  | S754_finite s m e =>
      match integral_value m e with
      | Some n =>
          if n <? 10 ^ 16
          then Some ((if s then "-" else "") ++ str_nat n ++ ".0")
          else None
      | None => None
      end
  | _ => None
  end.

(** A total renderer for examples: Python's text on integral values, a
    placeholder elsewhere. *)
Definition repr_example (f : float) : string :=
  match repr_integral f with
  | Some s => s
  | None => "?"
  end.

(** ** Configuration (lines 8-14, 31-32, 36, 39) *)

Definition MODEL_COMPLEXITY : Z := 1.
Definition UDP_IP : string := "192.168.0.165".
Definition UDP_PORT : Z := 5052.
Definition TARGET_FPS : Z := 30.

(** [cap.set(3, 1280)], [cap.set(4, 720)]: the requested capture size. *)
Definition CAP_PROP_FRAME_WIDTH : Z := 3.
Definition CAP_PROP_FRAME_HEIGHT : Z := 4.
Definition REQUESTED_WIDTH : Z := 1280.
Definition REQUESTED_HEIGHT : Z := 720.

Definition serverAddressPort : string * Z := (UDP_IP, UDP_PORT).

(** [frame_time = 1.0 / TARGET_FPS] *)
Definition frame_time : float := (1 / float_of_int TARGET_FPS)%float.

(** ** The outside world *)

(** A frame: its [shape] (rows, columns, channels) and the skeleton drawn
    over it, if any.  The pixels themselves play no part in the loop. *)
Record Image : Type := mkImage {
  shape : Z * Z * Z;
  overlay : option (list (Landmark float))
}.

(** The calls the script makes, in the order it makes them. *)
Inductive Event : Type :=
| Pose (model_complexity : Z)
| VideoCapture (index : Z)
| CapSet (prop value : Z)
| Socket
| CapRead (result : option Image)
| Print (text : string)
| CvtColor (img : Image)
| PoseProcess (img : Image) (result : option (list (Landmark float)))
| DrawLandmarks (img : Image) (landmarks : list (Landmark float))
| SockSendto (payload : list byte) (address : string * Z)
             (raised : option string)
| TimeTime (now : float)
| TimeSleep (seconds : float)
| ImShow (title : string) (img : Image)
| WaitKey (delay key : Z)
| CapRelease
| DestroyAllWindows.

(** What the world answers during one pass through the loop body.  An
    answer to a call the pass does not make is not looked at. *)
Record Env : Type := mkEnv {
  env_frame : option Image;                  (* [cap.read()]: [None] is [success = False] *)
  env_pose : option (list (Landmark float)); (* [results.pose_landmarks] *)
  env_send_error : option string;            (* the exception [sock.sendto] raises, if any *)
  env_time1 : float;                         (* [time.time()] on line 81 *)
  env_time2 : float;                         (* [time.time()] on line 85 *)
  env_key : Z                                (* [cv2.waitKey(1)] *)
}.

(** ** Computations that leave a trace *)

Definition IO (A : Type) : Type := A * list Event.

Definition ret {A : Type} (a : A) : IO A := (a, []).

Definition bind {A B : Type} (m : IO A) (k : A -> IO B) : IO B :=
  let (a, t1) := m in
  let (b, t2) := k a in
  (b, (t1 ++ t2)%list).

Definition emit (e : Event) : IO unit := (tt, [e]).

Definition value {A : Type} (m : IO A) : A := fst m.
Definition trace {A : Type} (m : IO A) : list Event := snd m.

Declare Scope io_scope.
Delimit Scope io_scope with io.
Notation "x <- m ;; k" := (bind m (fun x => k))
  (at level 100, m at next level, right associativity) : io_scope.
Notation "m ;; k" := (bind m (fun _ => k))
  (at level 100, right associativity) : io_scope.
Local Open Scope io_scope.

(** ** Observations on traces *)

Definition is_sendto (e : Event) : bool :=
  match e with SockSendto _ _ _ => true | _ => false end.

Definition is_wait_key (e : Event) : bool :=
  match e with WaitKey _ _ => true | _ => false end.

Definition is_sleep (e : Event) : bool :=
  match e with TimeSleep _ => true | _ => false end.

Definition is_time (e : Event) : bool :=
  match e with TimeTime _ => true | _ => false end.

Definition is_imshow (e : Event) : bool :=
  match e with ImShow _ _ => true | _ => false end.

Definition is_cap_read (e : Event) : bool :=
  match e with CapRead _ => true | _ => false end.

Definition is_pose_process (e : Event) : bool :=
  match e with PoseProcess _ _ => true | _ => false end.

(** The [sock.sendto] calls of a trace. *)
Definition sendtos (t : list Event) : list Event := filter is_sendto t.

(** The datagrams that left: the payloads of the calls that did not raise. *)
Fixpoint datagrams (t : list Event) : list (list byte) :=
  match t with
  | [] => []
  | SockSendto payload _ None :: t' => payload :: datagrams t'
  | _ :: t' => datagrams t'
  end.

(** The durations handed to [time.sleep]. *)
Fixpoint sleeps (t : list Event) : list float :=
  match t with
  | [] => []
  | TimeSleep d :: t' => d :: sleeps t'
  | _ :: t' => sleeps t'
  end.

(** ** The loop (lines 42-94) *)

Inductive Control : Type := Next | Break.

(** [cv2.waitKey(1) & 0xFF == ord('q')] *)
Definition is_quit (key : Z) : bool := Z.land key 255 =? 113.

Section Server.
(** [float.__repr__], the text [str] prints for each number of [data]. *)
Variable float_repr : float -> string.

(** Lines 75-78: the send and its [except] clause. *)
Definition send_data (env : Env) (data : list float) : IO unit :=
  let payload := str_encode (str_list float_repr data) in
  emit (SockSendto payload serverAddressPort (env_send_error env)) ;;
  match env_send_error env with
  | None => ret tt
  | Some e => emit (Print ("Socket Error: " ++ e))
  end.

(** Lines 55-78: [data = []], then the guarded extraction and send.
    Returns the frame as the preview will show it. *)
Definition process_landmarks (env : Env) (img : Image) (h w : Z)
    (pose_landmarks : option (list (Landmark float))) : IO Image :=
  let data : list float := [] in
  match pose_landmarks with
  | Some landmarks =>
      emit (DrawLandmarks img landmarks) ;;
      let img := {| shape := shape img; overlay := Some landmarks |} in
      let data := extract_landmarks h w landmarks data in
      send_data env data ;;
      ret img
  | None => ret img
  end.

(** Lines 81-85: frame rate limiting.  Returns the new [last_frame_time]. *)
Definition pace (env : Env) (last_frame_time : float) : IO float :=
  emit (TimeTime (env_time1 env)) ;;
  let current_time := env_time1 env in
  let elapsed := (current_time - last_frame_time)%float in
  (if (elapsed <? frame_time)%float
   then emit (TimeSleep (frame_time - elapsed)%float)
   else ret tt) ;;
  emit (TimeTime (env_time2 env)) ;;
  ret (env_time2 env).

(** Lines 44-91: one pass through the body of [while True]. *)
Definition iteration (env : Env) (last_frame_time : float)
    : IO (float * Control) :=
  emit (CapRead (env_frame env)) ;;
  match env_frame env with
  | None =>
      emit (Print "Ignoring empty camera frame.") ;;
      ret (last_frame_time, Next)
  | Some img =>
      let '(h, w, _) := shape img in
      emit (CvtColor img) ;;
      emit (PoseProcess img (env_pose env)) ;;
      img <- process_landmarks env img h w (env_pose env) ;;
      last_frame_time <- pace env last_frame_time ;;
      emit (ImShow "Image" img) ;;
      emit (WaitKey 1 (env_key env)) ;;
      ret (last_frame_time, if is_quit (env_key env) then Break else Next)
  end.

(** Where the loop stands once the world's script is used up. *)
Inductive Loop : Type :=
| Running (last_frame_time : float)
| Exited.

(** [while True:] against a finite script of answers, one [Env] a pass. *)
Fixpoint while_true (script : list Env) (last_frame_time : float)
    : IO Loop :=
  match script with
  | [] => ret (Running last_frame_time)
  | env :: script' =>
      r <- iteration env last_frame_time ;;
      match snd r with
      | Break => ret Exited
      | Next => while_true script' (fst r)
      end
  end.

(** Lines 93-94. *)
Definition shutdown : IO unit :=
  emit CapRelease ;; emit DestroyAllWindows.

(** The whole script: set-up (lines 18-40), the loop, and the release
    of camera and window once the loop is left. *)
Definition main (t0 : float) (script : list Env) : IO Loop :=
  emit (Pose MODEL_COMPLEXITY) ;;
  emit (VideoCapture 0) ;;
  emit (CapSet CAP_PROP_FRAME_WIDTH REQUESTED_WIDTH) ;;
  emit (CapSet CAP_PROP_FRAME_HEIGHT REQUESTED_HEIGHT) ;;
  emit Socket ;;
  emit (TimeTime t0) ;;
  l <- while_true script t0 ;;
  match l with
  | Exited => shutdown ;; ret Exited
  | Running t => ret (Running t)
  end.
End Server.

(** ** Scenarios *)

(** The same answers with another outcome of the send. *)
Definition with_send_error (env : Env) (r : option string) : Env :=
  {| env_frame := env_frame env;
     env_pose := env_pose env;
     env_send_error := r;
     env_time1 := env_time1 env;
     env_time2 := env_time2 env;
     env_key := env_key env |}.

(** What the set-up leaves in the trace (lines 18-40). *)
Definition setup_trace (t0 : float) : list Event :=
  [Pose MODEL_COMPLEXITY;
   VideoCapture 0;
   CapSet CAP_PROP_FRAME_WIDTH REQUESTED_WIDTH;
   CapSet CAP_PROP_FRAME_HEIGHT REQUESTED_HEIGHT;
   Socket;
   TimeTime t0].

(** What a pass with a failed capture leaves in the trace (lines 44-47). *)
Definition capture_failure_trace : list Event :=
  [CapRead None; Print "Ignoring empty camera frame."].

(** A 1280 x 720 BGR frame and a 640 x 480 one. *)
Definition frame_720p : Image := {| shape := (720, 1280, 3); overlay := None |}.
Definition frame_480p : Image := {| shape := (480, 640, 3); overlay := None |}.

(** One landmark at normalized (0.5, 0.5, 0.1); the last literal is the
    binary64 number Python reads [0.1] as. *)
Definition centre_landmark : Landmark float :=
  mkLandmark 0.5%float 0.5%float 0x1.999999999999ap-4%float.

(** A landmark at the very top edge of the frame: [y] is 2^-60. *)
Definition top_edge_landmark : Landmark float :=
  mkLandmark 0.5%float 0x1p-60%float 0.25%float.

(** A fast pass: a pose is seen, the send goes through, 10 ms have gone by
    since the stored timestamp 100.0, no key is down. *)
Definition env_detected : Env :=
  {| env_frame := Some frame_720p;
     env_pose := Some [centre_landmark];
     env_send_error := None;
     env_time1 := 0x1.900a3d70a3d71p+6%float;      (* 100.01 *)
     env_time2 := 0x1.9022222222222p+6%float;      (* 100.03333333333333 *)
     env_key := -1 |}.

(** A pass on a camera that delivers 640 x 480 although 1280 x 720 was
    requested. *)
Definition env_small_frame : Env :=
  {| env_frame := Some frame_480p;
     env_pose := Some [mkLandmark 0.5%float 0.5%float 0.25%float];
     env_send_error := None;
     env_time1 := 100.5%float;
     env_time2 := 100.5%float;
     env_key := -1 |}.

(** A pass where the estimator sees nobody. *)
Definition env_no_pose : Env :=
  {| env_frame := Some frame_720p;
     env_pose := None;
     env_send_error := None;
     env_time1 := 100.5%float;
     env_time2 := 100.5%float;
     env_key := -1 |}.

(** A pass whose capture fails while [q] is held down. *)
Definition env_capture_failed : Env :=
  {| env_frame := None;
     env_pose := None;
     env_send_error := None;
     env_time1 := 100.5%float;
     env_time2 := 100.5%float;
     env_key := 113 |}.

(** A pass whose send raises. *)
Definition env_unreachable : Env :=
  with_send_error env_detected (Some "[Errno 101] Network is unreachable").

(** A pass during which [q] is pressed. *)
Definition env_quit : Env :=
  {| env_frame := Some frame_480p;
     env_pose := None;
     env_send_error := None;
     env_time1 := 100.5%float;
     env_time2 := 100.5%float;
     env_key := 113 |}.

(** ** Readings of a script *)

(** Did the pass get a frame, a pose; does it leave the loop? *)
Definition captured (env : Env) : bool :=
  match env_frame env with Some _ => true | None => false end.

Definition detected (env : Env) : bool :=
  captured env && match env_pose env with Some _ => true | None => false end.

Definition quits (env : Env) : bool :=
  captured env && is_quit (env_key env).

(** The passes of a script that run: all up to the first that leaves the
    loop, that one included. *)
Fixpoint executed (script : list Env) : list Env :=
  match script with
  | [] => []
  | env :: script' =>
      if quits env then [env] else env :: executed script'
  end.

(** The datagram a pass puts on the wire, if any: the rendering of the
    mapped landmarks of its own frame. *)
Definition pass_datagrams (float_repr : float -> string) (env : Env)
    : list (list byte) :=
  match env_frame env, env_pose env, env_send_error env with
  | Some img, Some landmarks, None =>
      let '(h, w, _) := shape img in
      [str_encode (str_list float_repr (extract_landmarks h w landmarks []))]
  | _, _, _ => []
  end.

(** The timestamp the passes of a script leave behind: the second clock
    reading of the last pass that captured a frame. *)
Definition last_frame_time_after (script : list Env) (t : float) : float :=
  fold_left (fun t env => if captured env then env_time2 env else t) script t.

(** A [sendto] to the configured address; a [sleep] of a duration that is
    not negative; neither of the two release calls. *)
Definition to_server (e : Event) : Prop :=
  match e with
  | SockSendto _ address _ => address = ("192.168.0.165", 5052)
  | _ => True
  end.

Definition sleep_ok (e : Event) : Prop :=
  match e with
  | TimeSleep d => (0 <=? d)%float = true
  | _ => True
  end.

Definition not_release (e : Event) : Prop :=
  e <> CapRelease /\ e <> DestroyAllWindows.

(** ** Binary64 values and rounding *)

(** The shift record and the location of the quotient [N / D], as the
    rounding of [SpecFloat] keeps them. *)
Definition loc_of (r D : Z) : location :=
  if r =? 0 then loc_Exact else loc_Inexact (2 * r ?= D).

Definition rec_of (N D : Z) : shr_record :=
  {| shr_m := N / D;
     shr_r := D <=? 2 * (N mod D);
     shr_s := negb (N mod D =? 0) && negb (2 * (N mod D) =? D) |}.

(** The float a sign, a mantissa and an exponent stand for. *)
Definition SF_of (s : bool) (m e : Z) : spec_float :=
  match m with
  | Z0 => S754_zero s
  | Zpos p => S754_finite s p e
  | Zneg _ => S754_nan
  end.

(** The rational a float is worth, and whether it is a number at all. *)
Definition pow2 (e : Z) : Q := (2 ^ e)%Q.

Definition sign_Q (s : bool) : Q := if s then (-1)%Q else 1%Q.

Definition SF2Q (f : spec_float) : Q :=
  match f with
  | S754_finite s m e => (sign_Q s * inject_Z (Z.pos m) * pow2 e)%Q
  | _ => 0%Q
  end.

Definition SFfinite (f : spec_float) : bool :=
  match f with
  | S754_finite _ _ _ | S754_zero _ => true
  | _ => false
  end.

(** The unit roundoff 2^-53 of binary64, and half its smallest step,
    2^-1075. *)
Definition unit_roundoff : Q := (1 # 9007199254740992)%Q.
Definition eta_min : Q := pow2 (-1075).

Definition F2Q (x : float) : Q := SF2Q (Prim2SF x).
Definition finite (x : float) : bool := SFfinite (Prim2SF x).

(** The tolerance of the round trip: 2^-50, relative to [1 + |c|]. *)
Definition tolerance : Q := (1 # 1125899906842624)%Q.

(** Magnitudes: coordinates up to 2^128 (every finite binary32 value),
    scales up to 2^64, and a level far below the overflow threshold that no
    intermediate value of the round trip reaches. *)
Definition coord_max : Q := Eval vm_compute in pow2 128.
Definition scale_max : Q := Eval vm_compute in pow2 64.
Definition safe_level : Q := Eval vm_compute in pow2 256.

(** * Binary64 subtraction keeps the order

    The pacer relies on [a < b] giving a difference [b - a] that is not
    negative.  For IEEE 754 this needs an argument: the operands are aligned
    on the smaller exponent, subtracted as integers, and the result is
    rounded; rounding never changes the sign.  The facts are proved on the
    Standard Library's specification [SpecFloat] and carried to the
    primitive type by its [FloatAxioms]. *)

Module Binary64.

Definition SFnonneg (f : spec_float) : Prop :=
  SFleb (S754_zero false) f = true.

Lemma digits2_bounds (p : positive) :
  2 ^ (Z.pos (digits2_pos p) - 1) <= Z.pos p < 2 ^ Z.pos (digits2_pos p).
Proof.
  induction p as [p IH|p IH|]; simpl digits2_pos.
  - rewrite Pos2Z.inj_succ, Z.pow_succ_r by lia.
    replace (Z.succ (Z.pos (digits2_pos p)) - 1)
      with (Z.succ (Z.pos (digits2_pos p) - 1)) by lia.
    rewrite Z.pow_succ_r by lia. lia.
  - rewrite Pos2Z.inj_succ, Z.pow_succ_r by lia.
    replace (Z.succ (Z.pos (digits2_pos p)) - 1)
      with (Z.succ (Z.pos (digits2_pos p) - 1)) by lia.
    rewrite Z.pow_succ_r by lia. lia.
  - simpl. lia.
Qed.

Lemma iter_xO_value (m d : positive) :
  Z.pos (Pos.iter xO m d) = Z.pos m * 2 ^ Z.pos d.
Proof.
  revert m. induction d as [|d IH] using Pos.peano_ind; intro m.
  - simpl. lia.
  - rewrite Pos.iter_succ, Pos2Z.inj_xO, IH, Pos2Z.inj_succ, Z.pow_succ_r by lia.
    lia.
Qed.

Lemma shl_align_value (m : positive) (e e' : Z) :
  e' <= e -> Z.pos (fst (shl_align m e e')) = Z.pos m * 2 ^ (e - e').
Proof.
  intro Hle. unfold shl_align. destruct (e' - e) as [|d|d] eqn:E; simpl.
  - replace (e - e') with 0 by lia. rewrite Z.pow_0_r. lia.
  - lia.
  - rewrite iter_xO_value.
    replace (e - e') with (Z.pos d) by (pose proof (Pos2Z.opp_pos d); lia).
    reflexivity.
Qed.

(** A valid binary64 mantissa has at most 53 bits, and exactly 53 above
    the smallest exponent. *)
Lemma bounded_digits (m : positive) (e : Z) :
  bounded prec emax m e = true ->
  Z.pos (digits2_pos m) <= 53 /\ -1074 <= e /\
  (-1074 < e -> Z.pos (digits2_pos m) = 53).
Proof.
  unfold bounded, canonical_mantissa, fexp, SpecFloat.emin, prec, emax.
  intro H. apply andb_prop in H. destruct H as [H _].
  apply Z.eqb_eq in H. lia.
Qed.

(** Among valid floats the smaller exponent has the smaller magnitude. *)
Lemma lt_exponent_lt_magnitude (m1 : positive) (e1 : Z) (m2 : positive) (e2 : Z) :
  bounded prec emax m1 e1 = true -> bounded prec emax m2 e2 = true ->
  e1 < e2 -> Z.pos m1 < Z.pos m2 * 2 ^ (e2 - e1).
Proof.
  intros B1 B2 L.
  apply bounded_digits in B1, B2.
  pose proof (digits2_bounds m1) as D1. pose proof (digits2_bounds m2) as D2.
  destruct B1 as (d1 & l1 & _). destruct B2 as (_ & _ & d2).
  rewrite d2 in D2 by lia. simpl Z.sub in D2.
  assert (2 ^ Z.pos (digits2_pos m1) <= 2 ^ 53) by (apply Z.pow_le_mono_r; lia).
  assert (2 ^ 1 <= 2 ^ (e2 - e1)) by (apply Z.pow_le_mono_r; lia).
  change (2 ^ 53) with (2 ^ 52 * 2 ^ 1) in *.
  nia.
Qed.

Lemma shr_1_nonneg (mrs : shr_record) :
  0 <= shr_m mrs -> 0 <= shr_m (shr_1 mrs).
Proof.
  destruct mrs as [m r s]. simpl.
  destruct m as [|p|p]; [| destruct p | destruct p]; simpl; lia.
Qed.

Lemma iter_pos_invariant {A : Type} (P : A -> Prop) (f : A -> A) :
  (forall a, P a -> P (f a)) ->
  forall n a, P a -> P (SpecFloat.iter_pos f n a).
Proof.
  intros Hf n. induction n as [n IH|n IH|]; intros a Ha; simpl; auto.
Qed.

Lemma shr_fexp_nonneg (m e : Z) (l : location) :
  0 <= m -> 0 <= shr_m (fst (shr_fexp prec emax m e l)).
Proof.
  intro Hm. unfold shr_fexp, shr.
  assert (H0 : 0 <= shr_m (shr_record_of_loc m l))
    by (destruct l as [|[]]; exact Hm).
  destruct (fexp prec emax (Zdigits2 m + e) - e); simpl; trivial.
  apply (iter_pos_invariant (fun r => 0 <= shr_m r)); trivial.
  exact shr_1_nonneg.
Qed.

Lemma round_nearest_even_nonneg (m : Z) (l : location) :
  0 <= m -> 0 <= round_nearest_even m l.
Proof.
  intro Hm. destruct l as [|[]]; simpl; trivial; try lia.
  destruct (Z.even m); lia.
Qed.

(** Rounding a non-negative integer gives +0, a positive float or
    +infinity. *)
Lemma binary_round_aux_nonneg (m e : Z) (l : location) :
  0 <= m -> SFnonneg (binary_round_aux prec emax false m e l).
Proof.
  intro Hm. unfold binary_round_aux.
  pose proof (shr_fexp_nonneg m e l Hm) as H1.
  destruct (shr_fexp prec emax m e l) as [mrs' e'] eqn:E1. simpl in H1.
  pose proof (shr_fexp_nonneg _ e' loc_Exact
                (round_nearest_even_nonneg _ (loc_of_shr_record mrs') H1)) as H2.
  destruct (shr_fexp prec emax
              (round_nearest_even (shr_m mrs') (loc_of_shr_record mrs'))
              e' loc_Exact) as [mrs'' e''] eqn:E2.
  simpl in H2.
  destruct (shr_m mrs'') as [|p|p].
  - reflexivity.
  - destruct (e'' <=? emax - prec); reflexivity.
  - lia.
Qed.

Lemma binary_normalize_nonneg (m e : Z) :
  0 <= m -> SFnonneg (binary_normalize prec emax m e false).
Proof.
  intro Hm. destruct m as [|p|p]; simpl.
  - reflexivity.
  - unfold binary_round.
    destruct (shl_align p e (fexp prec emax (Z.pos (digits2_pos p) + e)))
      as [mz ez].
    apply binary_round_aux_nonneg. lia.
  - lia.
Qed.

(** On the specification: [x < y] gives [0 <= y - x]. *)
Lemma SFsub_nonneg (x y : spec_float) :
  valid_binary x = true -> valid_binary y = true ->
  SFltb x y = true -> SFnonneg (SF64sub y x).
Proof.
  intros Vx Vy L. unfold SFltb in L.
  destruct x as [sx|sx| |sx mx ex], y as [sy|sy| |sy my ey];
    try (destruct sx); try (destruct sy); simpl in L; try discriminate L;
    try reflexivity.
  all: unfold SF64sub, SFsub; cbv zeta; apply binary_normalize_nonneg;
    simpl in Vx, Vy; rewrite !shl_align_value by lia; unfold cond_Zopp.
  - (* both negative: |y| < |x| *)
    destruct (ex ?= ey) eqn:C; try discriminate L.
    + apply Z.compare_eq in C. subst ey.
      rewrite Z.min_id, Z.sub_diag, Z.pow_0_r.
      destruct (Pos.compare_cont Eq mx my) eqn:Cm; try discriminate L.
      apply Pos.compare_gt_iff in Cm. lia.
    + apply Z.compare_gt_iff in C.
      rewrite Z.min_l by lia. rewrite Z.sub_diag, Z.pow_0_r.
      pose proof (lt_exponent_lt_magnitude my ey mx ex Vy Vx C). lia.
  - (* x negative, y positive *)
    lia.
  - (* both positive *)
    destruct (ex ?= ey) eqn:C; try discriminate L.
    + apply Z.compare_eq in C. subst ey.
      rewrite Z.min_id, Z.sub_diag, Z.pow_0_r.
      destruct (Pos.compare_cont Eq mx my) eqn:Cm; try discriminate L.
      change (mx < my)%positive in Cm. lia.
    + change (ex < ey) in C.
      rewrite Z.min_r by lia. rewrite Z.sub_diag, Z.pow_0_r.
      pose proof (lt_exponent_lt_magnitude mx ex my ey Vx Vy C). lia.
Qed.

(** On the primitive type. *)
Lemma sub_nonneg (a b : float) :
  (a <? b)%float = true -> (0 <=? b - a)%float = true.
Proof.
  intro L. rewrite ltb_spec in L. rewrite leb_spec, sub_spec.
  exact (SFsub_nonneg _ _ (Prim2SF_valid a) (Prim2SF_valid b) L).
Qed.

End Binary64.

(** * The coordinate mapper *)

Section MapperFacts.
Context {T : Type} `{Number T}.

(** The loop appends one [mapped_point] per landmark, in order. *)
Lemma extract_landmarks_flat_map (h w : Z) (landmarks : list (Landmark T))
    (data : list T) :
  extract_landmarks h w landmarks data
  = (data ++ flat_map (mapped_point h w) landmarks)%list.
Proof.
  unfold extract_landmarks.
  revert data. induction landmarks as [|lm landmarks IH]; intro data; simpl.
  - now rewrite app_nil_r.
  - rewrite IH, <- app_assoc. reflexivity.
Qed.

Lemma length_flat_map_mapped_point (h w : Z) (landmarks : list (Landmark T)) :
  List.length (flat_map (mapped_point h w) landmarks) = (3 * List.length landmarks)%nat.
Proof.
  induction landmarks as [|lm landmarks IH]; simpl; [reflexivity|].
  rewrite IH. lia.
Qed.

Lemma length_extract_landmarks (h w : Z) (landmarks : list (Landmark T)) :
  List.length (extract_landmarks h w landmarks []) = (3 * List.length landmarks)%nat.
Proof.
  rewrite extract_landmarks_flat_map. simpl.
  apply length_flat_map_mapped_point.
Qed.

(** Landmark [i] fills positions [3i], [3i+1] and [3i+2]. *)
Lemma nth_error_flat_map_mapped_point (h w : Z)
    (landmarks : list (Landmark T)) (i : nat) (lm : Landmark T) :
  nth_error landmarks i = Some lm ->
  nth_error (flat_map (mapped_point h w) landmarks) (3 * i)
    = Some (mul (lm_x lm) (of_int w)) /\
  nth_error (flat_map (mapped_point h w) landmarks) (3 * i + 1)
    = Some (sub (of_int h) (mul (lm_y lm) (of_int h))) /\
  nth_error (flat_map (mapped_point h w) landmarks) (3 * i + 2)
    = Some (mul (lm_z lm) (of_int w)).
Proof.
  revert i. induction landmarks as [|lm0 landmarks IH]; intros i Hi.
  - destruct i; discriminate Hi.
  - destruct i as [|i].
    + injection Hi as ->. simpl. auto.
    + replace (3 * S i)%nat with (S (S (S (3 * i)))) by lia.
      simpl in Hi. simpl. apply IH. exact Hi.
Qed.
End MapperFacts.

(** * Traces *)

Lemma sendtos_app (t1 t2 : list Event) :
  sendtos (t1 ++ t2) = (sendtos t1 ++ sendtos t2)%list.
Proof. apply filter_app. Qed.

Lemma datagrams_app (t1 t2 : list Event) :
  datagrams (t1 ++ t2) = (datagrams t1 ++ datagrams t2)%list.
Proof.
  induction t1 as [|e t1 IH]; simpl; [reflexivity|].
  destruct e; try exact IH.
  destruct raised; simpl; [exact IH | now rewrite IH].
Qed.

Lemma sleeps_app (t1 t2 : list Event) :
  sleeps (t1 ++ t2) = (sleeps t1 ++ sleeps t2)%list.
Proof.
  induction t1 as [|e t1 IH]; simpl; [reflexivity|].
  destruct e; simpl; rewrite ?IH; reflexivity.
Qed.

Lemma list_byte_of_string_app (s1 s2 : string) :
  list_byte_of_string (s1 ++ s2)
  = (list_byte_of_string s1 ++ list_byte_of_string s2)%list.
Proof.
  induction s1 as [|a s1 IH]; simpl; [reflexivity|].
  unfold list_byte_of_string in *. simpl. now rewrite IH.
Qed.

Lemma trace_pair {A : Type} (a : A) (t : list Event) : trace (a, t) = t.
Proof. reflexivity. Qed.

Lemma value_pair {A : Type} (a : A) (t : list Event) : value (a, t) = a.
Proof. reflexivity. Qed.

(** * The loop body, step by step *)

Section ServerFacts.
Variable float_repr : float -> string.


Lemma pace_eq (env : Env) (t : float) :
  pace env t =
  (env_time2 env,
   (TimeTime (env_time1 env)
    :: (if (env_time1 env - t <? frame_time)%float
        then [TimeSleep (frame_time - (env_time1 env - t))%float]
        else [])
    ++ [TimeTime (env_time2 env)])%list).
Proof.
  unfold pace, bind, emit, ret.
  destruct (env_time1 env - t <? frame_time)%float; reflexivity.
Qed.

Lemma send_data_eq (env : Env) (data : list float) :
  send_data float_repr env data =
  (tt,
   (SockSendto (str_encode (str_list float_repr data)) serverAddressPort
               (env_send_error env)
    :: match env_send_error env with
       | None => []
       | Some e => [Print ("Socket Error: " ++ e)]
       end)%list).
Proof.
  unfold send_data, bind, emit, ret.
  destruct (env_send_error env); reflexivity.
Qed.

Lemma process_landmarks_detected (env : Env) (img : Image) (h w : Z)
    (landmarks : list (Landmark float)) :
  process_landmarks float_repr env img h w (Some landmarks) =
  ({| shape := shape img; overlay := Some landmarks |},
   (DrawLandmarks img landmarks
    :: trace (send_data float_repr env (extract_landmarks h w landmarks [])))%list).
Proof.
  unfold process_landmarks. rewrite send_data_eq.
  unfold bind, emit, ret, trace. simpl. now rewrite app_nil_r.
Qed.

Lemma process_landmarks_no_pose (env : Env) (img : Image) (h w : Z) :
  process_landmarks float_repr env img h w None = (img, []).
Proof. reflexivity. Qed.

Lemma iteration_capture_failed (env : Env) (t : float) :
  env_frame env = None ->
  iteration float_repr env t = ((t, Next), capture_failure_trace).
Proof.
  intro Hf. unfold iteration. rewrite Hf. reflexivity.
Qed.

Lemma iteration_captured (env : Env) (t : float) (img : Image) (h w c : Z) :
  env_frame env = Some img -> shape img = (h, w, c) ->
  iteration float_repr env t =
  ((env_time2 env, if is_quit (env_key env) then Break else Next),
   ([CapRead (Some img); CvtColor img; PoseProcess img (env_pose env)]
    ++ trace (process_landmarks float_repr env img h w (env_pose env))
    ++ trace (pace env t)
    ++ [ImShow "Image" (value (process_landmarks float_repr env img h w (env_pose env)));
        WaitKey 1 (env_key env)])%list).
Proof.
  intros Hf Hs. unfold iteration. rewrite Hf, Hs, (pace_eq env t).
  destruct (process_landmarks float_repr env img h w (env_pose env)) as [img' tr].
  unfold bind, emit, ret, trace, value. simpl.
  rewrite ?app_nil_r, <- ?app_assoc. reflexivity.
Qed.

Lemma iteration_value_captured (env : Env) (t : float) (img : Image) :
  env_frame env = Some img ->
  value (iteration float_repr env t)
  = (env_time2 env, if is_quit (env_key env) then Break else Next).
Proof.
  intro Hf. destruct (shape img) as [[h w] c] eqn:Hs.
  now rewrite (iteration_captured env t img h w c Hf Hs).
Qed.

Lemma while_true_cons (env : Env) (script : list Env) (t : float) :
  while_true float_repr (env :: script) t =
  match snd (value (iteration float_repr env t)) with
  | Break => (Exited, trace (iteration float_repr env t))
  | Next =>
      (value (while_true float_repr script (fst (value (iteration float_repr env t)))),
       (trace (iteration float_repr env t)
        ++ trace (while_true float_repr script (fst (value (iteration float_repr env t)))))%list)
  end.
Proof.
  simpl. unfold bind, ret, trace, value.
  destruct (iteration float_repr env t) as [[t' ctl] tr]. simpl.
  destruct ctl.
  - destruct (while_true float_repr script t'); reflexivity.
  - now rewrite app_nil_r.
Qed.

Lemma while_true_single (env : Env) (t : float) :
  trace (while_true float_repr [env] t) = trace (iteration float_repr env t).
Proof.
  rewrite while_true_cons.
  destruct (snd (value (iteration float_repr env t)));
    unfold trace; simpl; rewrite ?app_nil_r; reflexivity.
Qed.

Lemma while_true_cons_next (env : Env) (script : list Env) (t : float) :
  snd (value (iteration float_repr env t)) = Next ->
  trace (while_true float_repr (env :: script) t)
  = (trace (iteration float_repr env t)
     ++ trace (while_true float_repr script
                 (fst (value (iteration float_repr env t)))))%list.
Proof.
  intro Hn. rewrite while_true_cons, Hn. reflexivity.
Qed.

(** A prefix of passes that leaves the loop running, then the rest. *)
Lemma while_true_app (pre rest : list Env) (t t' : float) :
  value (while_true float_repr pre t) = Running t' ->
  while_true float_repr (pre ++ rest) t =
  (value (while_true float_repr rest t'),
   (trace (while_true float_repr pre t) ++ trace (while_true float_repr rest t'))%list).
Proof.
  revert t. induction pre as [|env pre IH]; intros t Hrun.
  - simpl in Hrun. injection Hrun as <-. simpl.
    destruct (while_true float_repr rest t); reflexivity.
  - rewrite <- app_comm_cons, while_true_cons.
    rewrite while_true_cons in Hrun |- *.
    destruct (snd (value (iteration float_repr env t))).
    + simpl in Hrun. rewrite (IH _ Hrun). simpl.
      now rewrite app_assoc.
    + discriminate Hrun.
Qed.

Lemma while_true_failures (fails : list Env) (t : float) :
  Forall (fun env => env_frame env = None) fails ->
  while_true float_repr fails t =
  (Running t, List.concat (map (fun _ => capture_failure_trace) fails)).
Proof.
  induction 1 as [|env fails Hf _ IH]; [reflexivity|].
  rewrite while_true_cons, (iteration_capture_failed env t Hf). simpl.
  rewrite IH. reflexivity.
Qed.
End ServerFacts.

(** * Runs of failed captures, and the script as a whole *)

Lemma filter_capture_failures (p : Event -> bool) (fails : list Env) :
  p (CapRead None) = false ->
  p (Print "Ignoring empty camera frame.") = false ->
  filter p (List.concat (map (fun _ => capture_failure_trace) fails)) = [].
Proof.
  intros H1 H2. induction fails as [|env fails IH]; [reflexivity|].
  simpl. now rewrite H1, H2.
Qed.

Lemma cap_reads_capture_failures (fails : list Env) :
  List.length
    (filter is_cap_read
       (List.concat (map (fun _ => capture_failure_trace) fails)))
  = List.length fails.
Proof.
  induction fails as [|env fails IH]; [reflexivity|].
  simpl. now rewrite IH.
Qed.

Lemma datagrams_capture_failures (fails : list Env) :
  datagrams (List.concat (map (fun _ => capture_failure_trace) fails)) = [].
Proof. induction fails as [|env fails IH]; [reflexivity | exact IH]. Qed.

Lemma sleeps_capture_failures (fails : list Env) :
  sleeps (List.concat (map (fun _ => capture_failure_trace) fails)) = [].
Proof. induction fails as [|env fails IH]; [reflexivity | exact IH]. Qed.

Lemma not_in_capture_failures (e : Event) (fails : list Env) :
  e <> CapRead None -> e <> Print "Ignoring empty camera frame." ->
  ~ In e (List.concat (map (fun _ => capture_failure_trace) fails)).
Proof.
  intros H1 H2. induction fails as [|env fails IH]; simpl; [tauto|].
  intros [E|[E|E]]; [now apply H1 | now apply H2 | now apply IH].
Qed.

Section MainFacts.
Variable float_repr : float -> string.

Lemma main_eq (t0 : float) (script : list Env) :
  main float_repr t0 script =
  match value (while_true float_repr script t0) with
  | Exited =>
      (Exited,
       (setup_trace t0 ++ trace (while_true float_repr script t0)
        ++ [CapRelease; DestroyAllWindows])%list)
  | Running t =>
      (Running t,
       (setup_trace t0 ++ trace (while_true float_repr script t0))%list)
  end.
Proof.
  unfold main, shutdown, bind, emit, ret, value, trace.
  destruct (while_true float_repr script t0) as [l tr].
  destruct l; simpl; rewrite ?app_nil_r; reflexivity.
Qed.

(** The loop is left only by a pass that captured a frame and saw the
    quit key, and that pass is the last thing in the trace. *)
Lemma while_true_exited (script : list Env) (t : float) :
  value (while_true float_repr script t) = Exited ->
  exists pre env post t',
    script = (pre ++ env :: post)%list /\
    value (while_true float_repr pre t) = Running t' /\
    env_frame env <> None /\
    is_quit (env_key env) = true /\
    trace (while_true float_repr script t)
    = (trace (while_true float_repr pre t)
       ++ trace (iteration float_repr env t'))%list.
Proof.
  revert t. induction script as [|env script IH]; intros t Hex.
  - discriminate Hex.
  - rewrite while_true_cons in Hex |- *.
    destruct (env_frame env) as [img|] eqn:Hf.
    + rewrite (iteration_value_captured float_repr env t img Hf) in Hex |- *.
      simpl snd in *. simpl fst in *.
      destruct (is_quit (env_key env)) eqn:Hq.
      * exists [], env, script, t. simpl.
        repeat split; try reflexivity; try assumption.
        rewrite Hf. discriminate.
      * simpl in Hex. destruct (IH _ Hex) as (pre & e & post & t' & -> & Hr & Hc & Hk & Ht).
        exists (env :: pre), e, post, t'.
        rewrite while_true_cons,
          (iteration_value_captured float_repr env t img Hf), Hq.
        simpl. repeat split; try assumption.
        rewrite Ht. now rewrite app_assoc.
    + rewrite (iteration_capture_failed float_repr env t Hf) in Hex |- *.
      simpl in Hex. simpl.
      destruct (IH _ Hex) as (pre & e & post & t' & -> & Hr & Hc & Hk & Ht).
      exists (env :: pre), e, post, t'.
      rewrite while_true_cons, (iteration_capture_failed float_repr env t Hf).
      simpl. repeat split; try assumption.
      now rewrite Ht.
Qed.
End MainFacts.

(** * The claims *)

Section Claims.
Variable float_repr : float -> string.

(** C1.  For a frame of shape [(h, w, c)] as read back from the frame
    itself, whatever size was requested of the camera, the list built
    from the estimator's landmarks is exactly [x*w], [h - y*h], [z*w]
    for each landmark, computed in binary64 with nothing clamped or
    rounded to integers, in the estimator's order: landmark [i] fills
    positions [3i], [3i+1], [3i+2], and that list is what the pass
    hands to the transport. *)
Theorem mapper_maps_every_landmark (env : Env) (t : float) (img : Image)
    (h w c : Z) (landmarks : list (Landmark float)) :
  env_frame env = Some img -> shape img = (h, w, c) ->
  env_pose env = Some landmarks ->
  let data :=
    flat_map (fun lm => [(lm_x lm * float_of_int w)%float;
                         (float_of_int h - lm_y lm * float_of_int h)%float;
                         (lm_z lm * float_of_int w)%float]) landmarks in
  extract_landmarks h w landmarks [] = data /\
  (forall (i : nat) (lm : Landmark float),
      nth_error landmarks i = Some lm ->
      nth_error data (3 * i) = Some (lm_x lm * float_of_int w)%float /\
      nth_error data (3 * i + 1)
        = Some (float_of_int h - lm_y lm * float_of_int h)%float /\
      nth_error data (3 * i + 2) = Some (lm_z lm * float_of_int w)%float) /\
  sendtos (trace (iteration float_repr env t))
  = [SockSendto (str_encode (str_list float_repr data)) serverAddressPort
                (env_send_error env)].
Proof.
  intros Hf Hs Hp data.
  assert (Hdata : extract_landmarks h w landmarks [] = data)
    by (rewrite extract_landmarks_flat_map; reflexivity).
  split; [exact Hdata|]. split.
  - intros i lm Hi.
    exact (nth_error_flat_map_mapped_point h w landmarks i lm Hi).
  - rewrite (iteration_captured float_repr env t img h w c Hf Hs), Hp.
    rewrite process_landmarks_detected, send_data_eq, pace_eq, Hdata.
    unfold trace, sendtos. simpl.
    destruct (env_send_error env);
      destruct (env_time1 env - t <? frame_time)%float; reflexivity.
Qed.


(** C3.  When the estimator reports no pose, the pass builds no payload
    and makes no [sendto] call, so no datagram leaves; the pass ends
    normally, and the loop goes on to the next pass (unless the quit key
    was pressed during this one). *)
Theorem no_pose_sends_nothing (env : Env) (t : float) (img : Image)
    (h w c : Z) :
  env_frame env = Some img -> shape img = (h, w, c) ->
  env_pose env = None ->
  process_landmarks float_repr env img h w None = (img, []) /\
  sendtos (trace (iteration float_repr env t)) = [] /\
  datagrams (trace (iteration float_repr env t)) = [] /\
  value (iteration float_repr env t)
  = (env_time2 env, if is_quit (env_key env) then Break else Next) /\
  (is_quit (env_key env) = false ->
   forall script,
     while_true float_repr (env :: script) t =
     (value (while_true float_repr script (env_time2 env)),
      (trace (iteration float_repr env t)
       ++ trace (while_true float_repr script (env_time2 env)))%list)).
Proof.
  intros Hf Hs Hp.
  pose proof (iteration_captured float_repr env t img h w c Hf Hs) as Hit.
  rewrite Hp, process_landmarks_no_pose, pace_eq in Hit.
  split; [reflexivity|].
  split; [|split; [|split]].
  - rewrite Hit. unfold trace, sendtos. simpl.
    destruct (env_time1 env - t <? frame_time)%float; reflexivity.
  - rewrite Hit. unfold trace. simpl.
    destruct (env_time1 env - t <? frame_time)%float; reflexivity.
  - rewrite Hit. reflexivity.
  - intros Hq script.
    rewrite while_true_cons, (iteration_value_captured float_repr env t img Hf).
    simpl. rewrite Hq. reflexivity.
Qed.

(** C4.  A pacer step reads the clock, takes [elapsed] as that reading
    minus the stored timestamp, sleeps exactly [frame_time - elapsed] when
    [elapsed < frame_time] and does not sleep otherwise, then stores a
    second clock reading, taken after the sleep.  The duration it sleeps
    is never negative.  [frame_time] is [1 / TARGET_FPS]. *)
Theorem pacer_sleeps_the_difference (env : Env) (t : float) :
  let elapsed := (env_time1 env - t)%float in
  frame_time = (1 / float_of_int TARGET_FPS)%float /\
  value (pace env t) = env_time2 env /\
  trace (pace env t)
  = (TimeTime (env_time1 env)
     :: (if (elapsed <? frame_time)%float
         then [TimeSleep (frame_time - elapsed)%float]
         else [])
     ++ [TimeTime (env_time2 env)])%list /\
  Forall (fun d => (0 <=? d)%float = true) (sleeps (trace (pace env t))) /\
  (forall img, env_frame env = Some img ->
     fst (value (iteration float_repr env t)) = env_time2 env /\
     sleeps (trace (iteration float_repr env t))
     = sleeps (trace (pace env t))).
Proof.
  intro elapsed. rewrite pace_eq. unfold value, trace. simpl fst. simpl snd.
  split; [reflexivity|]. split; [reflexivity|]. split; [reflexivity|].
  split.
  - fold elapsed.
    destruct (elapsed <? frame_time)%float eqn:L; simpl.
    + constructor; [|constructor]. apply Binary64.sub_nonneg. exact L.
    + constructor.
  - intros img Hf. destruct (shape img) as [[h w] c] eqn:Hs.
    rewrite (iteration_captured float_repr env t img h w c Hf Hs), pace_eq.
    split; [reflexivity|].
    destruct (env_pose env) as [landmarks|].
    + rewrite process_landmarks_detected, send_data_eq. unfold trace. simpl.
      destruct (env_send_error env);
        destruct (env_time1 env - t <? frame_time)%float; reflexivity.
    + rewrite process_landmarks_no_pose. unfold trace. simpl.
      destruct (env_time1 env - t <? frame_time)%float; reflexivity.
Qed.
End Claims.

Section LoopClaims.
Variable float_repr : float -> string.

(** C5.  A pass whose capture fails does nothing after the read but
    print the notice: no inference, no mapping, no send, and the loop
    state is untouched.  So any number of capture failures in a row
    leaves the loop running with no datagram sent, one capture attempt
    per pass, and the passes that follow run as if the failures had not
    happened. *)
Theorem capture_failure_skips_and_retries (fails script : list Env)
    (t : float) :
  Forall (fun env => env_frame env = None) fails ->
  (forall env, In env fails ->
     iteration float_repr env t = ((t, Next), capture_failure_trace)) /\
  value (while_true float_repr fails t) = Running t /\
  trace (while_true float_repr fails t)
  = List.concat (map (fun _ => capture_failure_trace) fails) /\
  filter is_pose_process (trace (while_true float_repr fails t)) = [] /\
  sendtos (trace (while_true float_repr fails t)) = [] /\
  datagrams (trace (while_true float_repr fails t)) = [] /\
  List.length (filter is_cap_read (trace (while_true float_repr fails t)))
  = List.length fails /\
  while_true float_repr (fails ++ script) t
  = (value (while_true float_repr script t),
     (trace (while_true float_repr fails t)
      ++ trace (while_true float_repr script t))%list).
Proof.
  intro Hfails.
  pose proof (while_true_failures float_repr fails t Hfails) as Hrun.
  split.
  { intros env Hin. apply iteration_capture_failed.
    rewrite Forall_forall in Hfails. now apply Hfails. }
  rewrite Hrun. unfold value, trace, sendtos. simpl fst. simpl snd.
  repeat split.
  - now apply filter_capture_failures.
  - now apply filter_capture_failures.
  - apply datagrams_capture_failures.
  - apply cap_reads_capture_failures.
  - rewrite (while_true_app float_repr fails script t t)
      by (rewrite Hrun; reflexivity).
    rewrite Hrun. reflexivity.
Qed.

(** C6.  When [sendto] raises, the exception is caught and printed; the
    pass otherwise runs exactly as it would have, ends in the same state
    with the same decision, makes no second [sendto] call, and no datagram
    leaves for this frame.  If the quit key was not pressed, a next pass
    with a detection and a working transport sends its datagram. *)
Theorem send_failure_is_dropped (env : Env) (t : float) (img : Image)
    (landmarks : list (Landmark float)) (msg : string) :
  env_frame env = Some img -> env_pose env = Some landmarks ->
  env_send_error env = Some msg ->
  value (iteration float_repr env t)
  = value (iteration float_repr (with_send_error env None) t) /\
  (exists pre post payload,
     trace (iteration float_repr env t)
     = (pre ++ [SockSendto payload serverAddressPort (Some msg);
                Print ("Socket Error: " ++ msg)] ++ post)%list /\
     trace (iteration float_repr (with_send_error env None) t)
     = (pre ++ [SockSendto payload serverAddressPort None] ++ post)%list /\
     sendtos pre = [] /\ sendtos post = []) /\
  datagrams (trace (iteration float_repr env t)) = [] /\
  (is_quit (env_key env) = false ->
   forall env' img' h' w' c' landmarks',
     env_frame env' = Some img' -> shape img' = (h', w', c') ->
     env_pose env' = Some landmarks' -> env_send_error env' = None ->
     datagrams (trace (while_true float_repr [env; env'] t))
     = [str_encode (str_list float_repr
                      (extract_landmarks h' w' landmarks' []))]).
Proof.
  intros Hf Hp He.
  destruct (shape img) as [[h w] c] eqn:Hs.
  pose proof (iteration_captured float_repr env t img h w c Hf Hs) as Hit.
  pose proof (iteration_captured float_repr (with_send_error env None) t
                img h w c Hf Hs) as Hok.
  simpl env_pose in Hok. simpl env_key in Hok. simpl env_time2 in Hok.
  rewrite Hp, process_landmarks_detected, send_data_eq, pace_eq in Hit, Hok.
  rewrite He in Hit. simpl env_send_error in Hok.
  simpl env_time1 in Hok. simpl env_time2 in Hok.
  unfold trace, value in Hit, Hok. simpl fst in Hit, Hok. simpl snd in Hit, Hok.
  assert (Hdat : datagrams (trace (iteration float_repr env t)) = []).
  { rewrite Hit. unfold trace. simpl.
    destruct (env_time1 env - t <? frame_time)%float; reflexivity. }
  split; [now rewrite Hit, Hok|].
  split.
  { exists [CapRead (Some img); CvtColor img;
            PoseProcess img (Some landmarks); DrawLandmarks img landmarks].
    eexists. eexists. rewrite Hit, Hok. unfold trace. simpl snd.
    split; [reflexivity|]. split; [reflexivity|].
    split; [reflexivity|].
    unfold sendtos. simpl.
    destruct (env_time1 env - t <? frame_time)%float; reflexivity. }
  split; [exact Hdat|].
  intros Hq env' img' h' w' c' landmarks' Hf' Hs' Hp' He'.
  assert (Hd' : datagrams (trace (iteration float_repr env' (env_time2 env)))
                = [str_encode (str_list float_repr
                                 (extract_landmarks h' w' landmarks' []))]).
  { rewrite (iteration_captured float_repr env' _ img' h' w' c' Hf' Hs'), Hp'.
    rewrite process_landmarks_detected, send_data_eq, pace_eq, He'.
    unfold trace. simpl.
    destruct (env_time1 env' - env_time2 env <? frame_time)%float;
      reflexivity. }
  pose proof (iteration_value_captured float_repr env t img Hf) as Hval.
  rewrite Hq in Hval.
  rewrite while_true_cons_next by (rewrite Hval; reflexivity).
  rewrite while_true_single, Hval. simpl fst.
  rewrite datagrams_app, Hdat, Hd'. reflexivity.
Qed.

(** C8, as the code has it.  Every pass whose capture succeeds polls the
    quit key exactly once, as its last step, right after showing the
    preview (a pass whose capture fails polls nothing).  When the key is
    the quit key the pass has run to its end, the loop is left, and camera
    and window are released.  No other way out of the loop exists: if the
    loop was left, the last pass captured a frame and polled the quit
    key. *)
Theorem quit_polled_once_when_captured :
  (forall env t img,
      env_frame env = Some img ->
      exists pre img',
        trace (iteration float_repr env t)
        = (pre ++ [ImShow "Image" img'; WaitKey 1 (env_key env)])%list /\
        filter is_wait_key pre = []) /\
  (forall pre env post img t0 t',
      value (while_true float_repr pre t0) = Running t' ->
      env_frame env = Some img -> is_quit (env_key env) = true ->
      main float_repr t0 (pre ++ env :: post)
      = (Exited,
         (setup_trace t0 ++ trace (while_true float_repr pre t0)
          ++ trace (iteration float_repr env t')
          ++ [CapRelease; DestroyAllWindows])%list)) /\
  (forall script t0,
      value (main float_repr t0 script) = Exited ->
      exists pre env post t',
        script = (pre ++ env :: post)%list /\
        value (while_true float_repr pre t0) = Running t' /\
        env_frame env <> None /\
        is_quit (env_key env) = true /\
        trace (main float_repr t0 script)
        = (setup_trace t0 ++ trace (while_true float_repr pre t0)
           ++ trace (iteration float_repr env t')
           ++ [CapRelease; DestroyAllWindows])%list).
Proof.
  split; [|split].
  - intros env t img Hf. destruct (shape img) as [[h w] c] eqn:Hs.
    exists ([CapRead (Some img); CvtColor img; PoseProcess img (env_pose env)]
            ++ trace (process_landmarks float_repr env img h w (env_pose env))
            ++ trace (pace env t))%list,
           (value (process_landmarks float_repr env img h w (env_pose env))).
    split.
    + rewrite (iteration_captured float_repr env t img h w c Hf Hs), trace_pair.
      now rewrite <- !app_assoc.
    + rewrite pace_eq, trace_pair.
      destruct (env_pose env) as [landmarks|].
      * rewrite process_landmarks_detected, send_data_eq, !trace_pair. simpl.
        destruct (env_send_error env);
          destruct (env_time1 env - t <? frame_time)%float; reflexivity.
      * rewrite process_landmarks_no_pose, trace_pair. simpl.
        destruct (env_time1 env - t <? frame_time)%float; reflexivity.
  - intros pre env post img t0 t' Hrun Hf Hq.
    assert (Hwt : while_true float_repr (pre ++ env :: post) t0
                  = (Exited, (trace (while_true float_repr pre t0)
                              ++ trace (iteration float_repr env t'))%list)).
    { rewrite (while_true_app float_repr pre (env :: post) t0 t' Hrun).
      rewrite while_true_cons,
        (iteration_value_captured float_repr env t' img Hf), Hq.
      reflexivity. }
    rewrite main_eq, Hwt. unfold value, trace. simpl fst. simpl snd.
    now rewrite <- !app_assoc.
  - intros script t0 Hex. rewrite main_eq in Hex |- *.
    destruct (value (while_true float_repr script t0)) eqn:Hv;
      [discriminate Hex|].
    destruct (while_true_exited float_repr script t0 Hv)
      as (pre & env & post & t' & Hscript & Hrun & Hc & Hk & Ht).
    exists pre, env, post, t'. repeat split; try assumption.
    unfold trace at 1. simpl snd. rewrite Ht. now rewrite <- !app_assoc.
Qed.

(** C9.  For a detected frame the payload handed to [sendto] is the
    encoding of [str(data)]: an opening bracket, the renderings of the
    [3 * landmarkCount] numbers separated by a comma and a space, a
    closing bracket. *)
Theorem payload_is_list_rendering (env : Env) (t : float) (img : Image)
    (h w c : Z) (landmarks : list (Landmark float)) :
  env_frame env = Some img -> shape img = (h, w, c) ->
  env_pose env = Some landmarks ->
  let data := extract_landmarks h w landmarks [] in
  let texts := map float_repr data in
  let payload :=
    (byte_of_ascii "["
     :: list_byte_of_string (String.concat ", " texts)
     ++ [byte_of_ascii "]"])%list in
  sendtos (trace (iteration float_repr env t))
  = [SockSendto payload serverAddressPort (env_send_error env)] /\
  payload = str_encode (str_list float_repr data) /\
  List.length texts = (3 * List.length landmarks)%nat.
Proof.
  intros Hf Hs Hp data texts payload.
  assert (Hpay : payload = str_encode (str_list float_repr data)).
  { unfold payload, str_encode, str_list, texts.
    rewrite !list_byte_of_string_app. reflexivity. }
  split; [|split].
  - rewrite Hpay.
    rewrite (iteration_captured float_repr env t img h w c Hf Hs), Hp.
    rewrite process_landmarks_detected, send_data_eq, pace_eq.
    fold data. unfold trace, sendtos. simpl.
    destruct (env_send_error env);
      destruct (env_time1 env - t <? frame_time)%float; reflexivity.
  - exact Hpay.
  - unfold texts, data. rewrite length_map. apply length_extract_landmarks.
Qed.

(** C10.  A pass whose capture fails makes no pacing sleep, reads no
    clock, leaves the stored timestamp as it was, shows no preview and
    polls no key; the next capture follows at once.  While every capture
    fails, whatever keys are pressed, the loop is never left and camera
    and window are never released. *)
Theorem capture_failure_skips_pacing_and_quit (fails : list Env)
    (t0 : float) :
  Forall (fun env => env_frame env = None) fails ->
  (forall env t, In env fails ->
     iteration float_repr env t = ((t, Next), capture_failure_trace)) /\
  value (while_true float_repr fails t0) = Running t0 /\
  sleeps (trace (while_true float_repr fails t0)) = [] /\
  filter is_time (trace (while_true float_repr fails t0)) = [] /\
  filter is_imshow (trace (while_true float_repr fails t0)) = [] /\
  filter is_wait_key (trace (while_true float_repr fails t0)) = [] /\
  main float_repr t0 fails
  = (Running t0,
     (setup_trace t0
      ++ List.concat (map (fun _ => capture_failure_trace) fails))%list) /\
  ~ In CapRelease (trace (main float_repr t0 fails)) /\
  ~ In DestroyAllWindows (trace (main float_repr t0 fails)).
Proof.
  intro Hfails.
  pose proof (while_true_failures float_repr fails t0 Hfails) as Hrun.
  assert (Hmain : main float_repr t0 fails
                  = (Running t0,
                     (setup_trace t0
                      ++ List.concat
                           (map (fun _ => capture_failure_trace) fails))%list))
    by (rewrite main_eq, Hrun; reflexivity).
  split.
  { intros env t Hin. apply iteration_capture_failed.
    rewrite Forall_forall in Hfails. now apply Hfails. }
  rewrite Hmain, Hrun. unfold value, trace. simpl fst. simpl snd.
  repeat split.
  - apply sleeps_capture_failures.
  - now apply filter_capture_failures.
  - now apply filter_capture_failures.
  - now apply filter_capture_failures.
  - intro Hin. simpl in Hin.
    repeat (destruct Hin as [Hin|Hin]; [discriminate Hin|]).
    revert Hin. apply not_in_capture_failures; discriminate.
  - intro Hin. simpl in Hin.
    repeat (destruct Hin as [Hin|Hin]; [discriminate Hin|]).
    revert Hin. apply not_in_capture_failures; discriminate.
Qed.
End LoopClaims.

(** * The claims on concrete passes *)

Lemma mapper_maps_every_landmark_witness :
  env_frame env_small_frame = Some frame_480p /\
  shape frame_480p = (480, 640, 3) /\
  env_pose env_small_frame = Some [mkLandmark 0.5 0.5 0.25]%float /\
  (REQUESTED_WIDTH, REQUESTED_HEIGHT) = (1280, 720) /\
  extract_landmarks 480 640 [mkLandmark 0.5 0.5 0.25]%float []
  = [320; 240; 160]%float /\
  sendtos (trace (iteration repr_example env_small_frame 100))
  = [SockSendto (str_encode "[320.0, 240.0, 160.0]") serverAddressPort None].
Proof.
  pose proof (mapper_maps_every_landmark repr_example env_small_frame 100
                frame_480p 480 640 3 [mkLandmark 0.5 0.5 0.25]%float
                eq_refl eq_refl eq_refl) as H.
  cbv zeta in H. destruct H as (H1 & _ & H3).
  split; [reflexivity|]. split; [reflexivity|]. split; [reflexivity|].
  split; [reflexivity|].
  split; [exact H1 | exact H3].
Defined.


Lemma no_pose_sends_nothing_witness :
  env_frame env_no_pose = Some frame_720p /\
  env_pose env_no_pose = None /\
  is_quit (env_key env_no_pose) = false /\
  sendtos (trace (iteration repr_example env_no_pose 100)) = [] /\
  datagrams (trace (while_true repr_example [env_no_pose; env_detected] 100))
  = [str_encode "[640.0, 360.0, 128.0]"].
Proof.
  pose proof (no_pose_sends_nothing repr_example env_no_pose 100
                frame_720p 720 1280 3 eq_refl eq_refl eq_refl) as H.
  destruct H as (_ & H2 & _ & _ & H5).
  split; [reflexivity|]. split; [reflexivity|]. split; [reflexivity|].
  split; [exact H2|].
  rewrite (H5 eq_refl [env_detected]). reflexivity.
Defined.

Lemma pacer_sleeps_the_difference_witness :
  env_frame env_detected = Some frame_720p /\
  trace (pace env_detected 100)
  = [TimeTime 0x1.900a3d70a3d71p+6;
     TimeSleep (frame_time - (0x1.900a3d70a3d71p+6 - 100));
     TimeTime 0x1.9022222222222p+6]%float /\
  sleeps (trace (iteration repr_example env_detected 100))
  = sleeps (trace (pace env_detected 100)) /\
  Forall (fun d => (0 <=? d)%float = true)
         (sleeps (trace (pace env_detected 100))).
Proof.
  pose proof (pacer_sleeps_the_difference repr_example env_detected 100) as H.
  cbv zeta in H. destruct H as (_ & _ & H3 & H4 & H5).
  split; [reflexivity|]. split; [exact H3|].
  split; [exact (proj2 (H5 frame_720p eq_refl)) | exact H4].
Defined.

Lemma capture_failure_skips_and_retries_witness :
  Forall (fun env => env_frame env = None)
         [env_capture_failed; env_capture_failed; env_capture_failed] /\
  value (while_true repr_example
           [env_capture_failed; env_capture_failed; env_capture_failed] 100)
  = Running 100 /\
  datagrams (trace (while_true repr_example
           [env_capture_failed; env_capture_failed; env_capture_failed] 100))
  = [] /\
  List.length (filter is_cap_read (trace (while_true repr_example
           [env_capture_failed; env_capture_failed; env_capture_failed] 100)))
  = 3%nat.
Proof.
  assert (Hf : Forall (fun env => env_frame env = None)
                 [env_capture_failed; env_capture_failed; env_capture_failed])
    by (repeat constructor).
  pose proof (capture_failure_skips_and_retries repr_example
                [env_capture_failed; env_capture_failed; env_capture_failed]
                [env_detected] 100 Hf) as H.
  destruct H as (_ & H2 & _ & _ & _ & H6 & H7 & _).
  split; [exact Hf|]. split; [exact H2|]. split; [exact H6 | exact H7].
Defined.

Lemma send_failure_is_dropped_witness :
  env_frame env_unreachable = Some frame_720p /\
  env_pose env_unreachable = Some [centre_landmark] /\
  env_send_error env_unreachable
  = Some "[Errno 101] Network is unreachable" /\
  datagrams (trace (iteration repr_example env_unreachable 100)) = [] /\
  datagrams (trace (while_true repr_example [env_unreachable; env_detected] 100))
  = [str_encode "[640.0, 360.0, 128.0]"].
Proof.
  pose proof (send_failure_is_dropped repr_example env_unreachable 100
                frame_720p [centre_landmark]
                "[Errno 101] Network is unreachable"
                eq_refl eq_refl eq_refl) as H.
  destruct H as (_ & _ & H3 & H4).
  split; [reflexivity|]. split; [reflexivity|]. split; [reflexivity|].
  split; [exact H3|].
  exact (H4 eq_refl env_detected frame_720p 720 1280 3 [centre_landmark]
            eq_refl eq_refl eq_refl eq_refl).
Defined.

(** A pass whose capture fails polls no key, although [q] is held down,
    and the loop is still running after it. *)
Lemma capture_failure_polls_no_key :
  env_key env_capture_failed = 113 /\
  filter is_wait_key (trace (iteration repr_example env_capture_failed 100))
  = [] /\
  List.length
    (filter is_wait_key (trace (iteration repr_example env_capture_failed 100)))
  <> 1%nat /\
  value (while_true repr_example [env_capture_failed] 100) = Running 100.
Proof.
  split; [reflexivity|]. split; [reflexivity|].
  split; [vm_compute; discriminate | reflexivity].
Qed.

Lemma quit_polled_once_when_captured_witness :
  value (while_true repr_example [env_detected] 100)
  = Running 0x1.9022222222222p+6 /\
  env_frame env_quit = Some frame_480p /\
  is_quit (env_key env_quit) = true /\
  main repr_example 100 [env_detected; env_quit; env_detected]
  = (Exited,
     (setup_trace 100
      ++ trace (while_true repr_example [env_detected] 100)
      ++ trace (iteration repr_example env_quit 0x1.9022222222222p+6)
      ++ [CapRelease; DestroyAllWindows])%list).
Proof.
  split; [reflexivity|]. split; [reflexivity|]. split; [reflexivity|].
  exact (proj1 (proj2 (quit_polled_once_when_captured repr_example))
           [env_detected] env_quit [env_detected] frame_480p
           100%float 0x1.9022222222222p+6%float eq_refl eq_refl eq_refl).
Defined.

Lemma payload_is_list_rendering_witness :
  env_frame env_detected = Some frame_720p /\
  shape frame_720p = (720, 1280, 3) /\
  env_pose env_detected = Some [centre_landmark] /\
  sendtos (trace (iteration repr_example env_detected 100))
  = [SockSendto (list_byte_of_string "[640.0, 360.0, 128.0]")
                serverAddressPort None].
Proof.
  pose proof (payload_is_list_rendering repr_example env_detected 100
                frame_720p 720 1280 3 [centre_landmark]
                eq_refl eq_refl eq_refl) as H.
  cbv zeta in H. destruct H as (H1 & _ & _).
  split; [reflexivity|]. split; [reflexivity|]. split; [reflexivity|].
  exact H1.
Defined.

Lemma capture_failure_skips_pacing_and_quit_witness :
  Forall (fun env => env_frame env = None)
         [env_capture_failed; env_capture_failed; env_capture_failed] /\
  is_quit (env_key env_capture_failed) = true /\
  value (main repr_example 100
           [env_capture_failed; env_capture_failed; env_capture_failed])
  = Running 100 /\
  filter is_wait_key
    (trace (while_true repr_example
              [env_capture_failed; env_capture_failed; env_capture_failed] 100))
  = [].
Proof.
  assert (Hf : Forall (fun env => env_frame env = None)
                 [env_capture_failed; env_capture_failed; env_capture_failed])
    by (repeat constructor).
  pose proof (capture_failure_skips_pacing_and_quit repr_example
                [env_capture_failed; env_capture_failed; env_capture_failed]
                100 Hf) as H.
  destruct H as (_ & _ & _ & _ & _ & H6 & H7 & _).
  split; [exact Hf|]. split; [reflexivity|].
  split; [rewrite H7; reflexivity | exact H6].
Defined.

(** * Binary64 order *)

Module Binary64Order.

(** Comparing the other way round gives the opposite answer. *)
Lemma SFcompare_swap (x y : spec_float) :
  SFcompare y x
  = match SFcompare x y with
    | Some c => Some (CompOpp c)
    | None => None
    end.
Proof.
  destruct x as [[]|[]| |[] mx ex], y as [[]|[]| |[] my ey];
    simpl; try reflexivity;
    rewrite (Z.compare_antisym ex ey);
    destruct (ex ?= ey); simpl; try reflexivity;
    pose proof (Pos.compare_cont_antisym mx my Eq) as A; simpl in A;
    rewrite <- A; destruct (Pos.compare_cont Eq mx my); reflexivity.
Qed.

(** [a <= b] rules out [b < a]. *)
Lemma leb_not_ltb (a b : float) :
  (a <=? b)%float = true -> (b <? a)%float = false.
Proof.
  rewrite leb_spec, ltb_spec. unfold SFleb, SFltb.
  rewrite (SFcompare_swap (Prim2SF a) (Prim2SF b)).
  destruct (SFcompare (Prim2SF a) (Prim2SF b)) as [[]|];
    simpl; congruence.
Qed.

End Binary64Order.

(** * Whole runs *)

Section RunFacts.
Variable float_repr : float -> string.

Lemma iteration_control (env : Env) (t : float) :
  snd (value (iteration float_repr env t))
  = if quits env then Break else Next.
Proof.
  unfold quits, captured. destruct (env_frame env) as [img|] eqn:Hf.
  - now rewrite (iteration_value_captured float_repr env t img Hf).
  - now rewrite (iteration_capture_failed float_repr env t Hf).
Qed.

Lemma iteration_state (env : Env) (t : float) :
  fst (value (iteration float_repr env t))
  = if captured env then env_time2 env else t.
Proof.
  unfold captured. destruct (env_frame env) as [img|] eqn:Hf.
  - now rewrite (iteration_value_captured float_repr env t img Hf).
  - now rewrite (iteration_capture_failed float_repr env t Hf).
Qed.

(** The trace of a run, pass by pass. *)
Lemma while_true_trace (env : Env) (script : list Env) (t : float) :
  trace (while_true float_repr (env :: script) t)
  = (trace (iteration float_repr env t)
     ++ if quits env then []
        else trace (while_true float_repr script
                      (if captured env then env_time2 env else t)))%list.
Proof.
  rewrite while_true_cons, iteration_control, iteration_state.
  destruct (quits env); rewrite trace_pair; [now rewrite app_nil_r | reflexivity].
Qed.

Lemma while_true_value (env : Env) (script : list Env) (t : float) :
  value (while_true float_repr (env :: script) t)
  = if quits env then Exited
    else value (while_true float_repr script
                  (if captured env then env_time2 env else t)).
Proof.
  rewrite while_true_cons, iteration_control, iteration_state.
  destruct (quits env); reflexivity.
Qed.

(** What holds of every event of every pass holds of every event of the
    loop. *)
Lemma while_true_Forall (P : Event -> Prop) :
  (forall env t, Forall P (trace (iteration float_repr env t))) ->
  forall script t, Forall P (trace (while_true float_repr script t)).
Proof.
  intros Hpass script. induction script as [|env script IH]; intro t.
  - constructor.
  - rewrite while_true_trace. apply Forall_app. split; [apply Hpass|].
    destruct (quits env); [constructor | apply IH].
Qed.

(** What each pass contributes to a count adds up over the passes that
    run. *)
Lemma while_true_count (p : Event -> bool) (f : Env -> nat) :
  (forall env t,
      List.length (filter p (trace (iteration float_repr env t))) = f env) ->
  forall script t,
    List.length (filter p (trace (while_true float_repr script t)))
    = list_sum (map f (executed script)).
Proof.
  intros Hpass script. induction script as [|env script IH]; intro t.
  - reflexivity.
  - rewrite while_true_trace, filter_app, length_app, Hpass. simpl executed.
    destruct (quits env); simpl; [lia | now rewrite IH].
Qed.

Lemma list_sum_indicator (q : Env -> bool) (k : nat) (l : list Env) :
  list_sum (map (fun env => if q env then k else 0%nat) l)
  = (k * List.length (filter q l))%nat.
Proof.
  induction l as [|env l IH]; simpl; [lia|].
  destruct (q env); simpl; lia.
Qed.

Lemma list_sum_ones (l : list Env) :
  list_sum (map (fun _ => 1%nat) l) = List.length l.
Proof. induction l as [|env l IH]; simpl; [reflexivity | now rewrite IH]. Qed.

Lemma length_executed (script : list Env) :
  (List.length (executed script) <= List.length script)%nat.
Proof.
  induction script as [|env script IH]; simpl; [lia|].
  destruct (quits env); simpl; lia.
Qed.

(** The full trace of a pass that captured a frame. *)
Lemma iteration_trace_captured (env : Env) (t : float) (img : Image)
    (h w c : Z) :
  env_frame env = Some img -> shape img = (h, w, c) ->
  trace (iteration float_repr env t)
  = ([CapRead (Some img); CvtColor img; PoseProcess img (env_pose env)]
     ++ match env_pose env with
        | Some landmarks =>
            DrawLandmarks img landmarks
            :: SockSendto
                 (str_encode
                    (str_list float_repr (extract_landmarks h w landmarks [])))
                 serverAddressPort (env_send_error env)
            :: match env_send_error env with
               | None => []
               | Some e => [Print ("Socket Error: " ++ e)]
               end
        | None => []
        end
     ++ trace (pace env t)
     ++ [ImShow "Image"
           (value (process_landmarks float_repr env img h w (env_pose env)));
         WaitKey 1 (env_key env)])%list.
Proof.
  intros Hf Hs.
  rewrite (iteration_captured float_repr env t img h w c Hf Hs), trace_pair.
  destruct (env_pose env) as [landmarks|].
  - rewrite process_landmarks_detected, send_data_eq, !trace_pair. reflexivity.
  - rewrite process_landmarks_no_pose, trace_pair. reflexivity.
Qed.

Lemma iteration_datagrams (env : Env) (t : float) :
  datagrams (trace (iteration float_repr env t))
  = pass_datagrams float_repr env.
Proof.
  unfold pass_datagrams. destruct (env_frame env) as [img|] eqn:Hf.
  - destruct (shape img) as [[h w] c] eqn:Hs.
    rewrite (iteration_trace_captured env t img h w c Hf Hs), pace_eq, trace_pair.
    destruct (env_pose env) as [landmarks|];
      [destruct (env_send_error env)|];
      destruct (env_time1 env - t <? frame_time)%float; reflexivity.
  - now rewrite (iteration_capture_failed float_repr env t Hf).
Qed.

Lemma iteration_counts (env : Env) (t : float) :
  List.length (filter is_cap_read (trace (iteration float_repr env t))) = 1%nat /\
  List.length (filter is_pose_process (trace (iteration float_repr env t)))
  = (if captured env then 1 else 0)%nat /\
  List.length (filter is_time (trace (iteration float_repr env t)))
  = (if captured env then 2 else 0)%nat /\
  List.length (filter is_imshow (trace (iteration float_repr env t)))
  = (if captured env then 1 else 0)%nat /\
  List.length (filter is_wait_key (trace (iteration float_repr env t)))
  = (if captured env then 1 else 0)%nat /\
  List.length (sendtos (trace (iteration float_repr env t)))
  = (if detected env then 1 else 0)%nat.
Proof.
  unfold detected, captured, sendtos.
  destruct (env_frame env) as [img|] eqn:Hf.
  - destruct (shape img) as [[h w] c] eqn:Hs.
    rewrite (iteration_trace_captured env t img h w c Hf Hs), pace_eq, trace_pair.
    destruct (env_pose env) as [landmarks|];
      [destruct (env_send_error env)|];
      destruct (env_time1 env - t <? frame_time)%float;
      repeat split; reflexivity.
  - rewrite (iteration_capture_failed float_repr env t Hf).
    repeat split; reflexivity.
Qed.

Lemma iteration_to_server (env : Env) (t : float) :
  Forall to_server (trace (iteration float_repr env t)).
Proof.
  destruct (env_frame env) as [img|] eqn:Hf.
  - destruct (shape img) as [[h w] c] eqn:Hs.
    rewrite (iteration_trace_captured env t img h w c Hf Hs), pace_eq, trace_pair.
    destruct (env_pose env) as [landmarks|];
      [destruct (env_send_error env)|];
      destruct (env_time1 env - t <? frame_time)%float;
      repeat constructor.
  - rewrite (iteration_capture_failed float_repr env t Hf).
    repeat constructor.
Qed.

Lemma iteration_sleep_ok (env : Env) (t : float) :
  Forall sleep_ok (trace (iteration float_repr env t)).
Proof.
  destruct (env_frame env) as [img|] eqn:Hf.
  - destruct (shape img) as [[h w] c] eqn:Hs.
    rewrite (iteration_trace_captured env t img h w c Hf Hs), pace_eq, trace_pair.
    destruct (env_time1 env - t <? frame_time)%float eqn:L;
      (destruct (env_pose env) as [landmarks|];
       [destruct (env_send_error env)|]);
      repeat (constructor; try exact I);
      simpl; apply Binary64.sub_nonneg; exact L.
  - rewrite (iteration_capture_failed float_repr env t Hf).
    repeat constructor.
Qed.

Lemma iteration_not_release (env : Env) (t : float) :
  Forall not_release (trace (iteration float_repr env t)).
Proof.
  destruct (env_frame env) as [img|] eqn:Hf.
  - destruct (shape img) as [[h w] c] eqn:Hs.
    rewrite (iteration_trace_captured env t img h w c Hf Hs), pace_eq, trace_pair.
    destruct (env_pose env) as [landmarks|];
      [destruct (env_send_error env)|];
      destruct (env_time1 env - t <? frame_time)%float;
      repeat (constructor; try (split; discriminate)).
  - rewrite (iteration_capture_failed float_repr env t Hf).
    repeat (constructor; try (split; discriminate)).
Qed.

Lemma sleeps_Forall (t : list Event) :
  Forall sleep_ok t ->
  Forall (fun d => (0 <=? d)%float = true) (sleeps t).
Proof.
  induction 1 as [|e t He _ IH]; simpl; [constructor|].
  destruct e; try exact IH. constructor; [exact He | exact IH].
Qed.

Lemma sleeps_length (t : list Event) :
  List.length (sleeps t) = List.length (filter is_sleep t).
Proof.
  induction t as [|e t IH]; simpl; [reflexivity|].
  destruct e; simpl; rewrite ?IH; reflexivity.
Qed.

Lemma iteration_sleep_count (env : Env) (t : float) :
  (List.length (filter is_sleep (trace (iteration float_repr env t))) <= 1)%nat.
Proof.
  destruct (env_frame env) as [img|] eqn:Hf.
  - destruct (shape img) as [[h w] c] eqn:Hs.
    rewrite (iteration_trace_captured env t img h w c Hf Hs), pace_eq, trace_pair.
    destruct (env_pose env) as [landmarks|];
      [destruct (env_send_error env)|];
      destruct (env_time1 env - t <? frame_time)%float; simpl; lia.
  - rewrite (iteration_capture_failed float_repr env t Hf). simpl. lia.
Qed.

Lemma while_true_sleep_count (script : list Env) (t : float) :
  (List.length (filter is_sleep (trace (while_true float_repr script t)))
   <= List.length script)%nat.
Proof.
  revert t. induction script as [|env script IH]; intro t; [simpl; lia|].
  rewrite while_true_trace, filter_app, length_app.
  pose proof (iteration_sleep_count env t).
  destruct (quits env); simpl;
    [|specialize (IH (if captured env then env_time2 env else t))]; lia.
Qed.

Lemma main_trace (t0 : float) (script : list Env) :
  trace (main float_repr t0 script)
  = (setup_trace t0 ++ trace (while_true float_repr script t0)
     ++ match value (while_true float_repr script t0) with
        | Exited => [CapRelease; DestroyAllWindows]
        | Running _ => []
        end)%list.
Proof.
  rewrite main_eq.
  destruct (value (while_true float_repr script t0));
    rewrite trace_pair; [now rewrite app_nil_r | reflexivity].
Qed.

Lemma main_value (t0 : float) (script : list Env) :
  value (main float_repr t0 script) = value (while_true float_repr script t0).
Proof.
  rewrite main_eq.
  destruct (value (while_true float_repr script t0)); reflexivity.
Qed.
End RunFacts.

(** * Further properties of the script *)

(** X1.  The quit test looks only at the low byte of the key code: a pass
    leaves the loop exactly when the code is 113 modulo 256, so a code with
    modifier bits above the low byte still quits, and -1 (no key) does
    not. *)
Theorem quit_key_is_low_byte (key : Z) :
  (is_quit key = true <-> key mod 256 = 113) /\
  (forall k, is_quit (key + 256 * k) = is_quit key) /\
  is_quit (-1) = false.
Proof.
  assert (Hland : forall z, Z.land z 255 = z mod 256).
  { intro z. change 255 with (Z.ones 8). rewrite Z.land_ones by lia.
    reflexivity. }
  unfold is_quit. split; [|split].
  - rewrite Hland. apply Z.eqb_eq.
  - intro k. rewrite !Hland.
    replace (key + 256 * k) with (key + k * 256) by lia.
    now rewrite Z.mod_add by lia.
  - reflexivity.
Qed.

Lemma quit_key_is_low_byte_witness :
  (113 + 256 * 4) mod 256 = 113 /\ is_quit (113 + 256 * 4) = true.
Proof.
  split; [reflexivity|].
  exact (proj2 (proj1 (quit_key_is_low_byte (113 + 256 * 4))) eq_refl).
Defined.

Section RunProperties.
Variable float_repr : float -> string.

(** X2.  Over a whole run, whatever the clock readings (going backwards or
    not a number included), every duration handed to [time.sleep] is a
    number that is not negative, and no pass sleeps more than once. *)
Theorem run_never_sleeps_negative (t0 : float) (script : list Env) :
  Forall (fun d => (0 <=? d)%float = true)
         (sleeps (trace (main float_repr t0 script))) /\
  (List.length (sleeps (trace (main float_repr t0 script)))
   <= List.length script)%nat.
Proof.
  rewrite main_trace, !sleeps_app. split.
  - apply Forall_app. split; [constructor|].
    apply Forall_app. split.
    + apply sleeps_Forall, while_true_Forall, iteration_sleep_ok.
    + destruct (value (while_true float_repr script t0)); constructor.
  - rewrite !length_app, !sleeps_length.
    pose proof (while_true_sleep_count float_repr script t0).
    destruct (value (while_true float_repr script t0)); simpl; lia.
Qed.

(** X3.  Every [sendto] call of a run, failed or not, goes to the one
    configured address, 192.168.0.165 port 5052. *)
Theorem run_sends_to_server_only (t0 : float) (script : list Env)
    (payload : list byte) (address : string * Z) (raised : option string) :
  In (SockSendto payload address raised) (trace (main float_repr t0 script)) ->
  address = ("192.168.0.165", 5052).
Proof.
  intro Hin.
  assert (Hall : Forall to_server (trace (main float_repr t0 script))).
  { rewrite main_trace. apply Forall_app. split; [repeat constructor|].
    apply Forall_app. split.
    - apply while_true_Forall, iteration_to_server.
    - destruct (value (while_true float_repr script t0)); repeat constructor. }
  rewrite Forall_forall in Hall. exact (Hall _ Hin).
Qed.

(** X4.  The datagrams of a run are, in order, one per pass that ran,
    captured a frame, got a pose and whose send did not raise; each is the
    rendering of that pass's own landmarks over that pass's own frame size.
    Nothing of an earlier frame is carried over, nothing is sent twice, and
    nothing is sent for a pass after the one that quits. *)
Theorem run_datagrams (t0 : float) (script : list Env) :
  datagrams (trace (main float_repr t0 script))
  = flat_map (pass_datagrams float_repr) (executed script).
Proof.
  rewrite main_trace, !datagrams_app.
  replace (datagrams (setup_trace t0)) with (@nil (list byte)) by reflexivity.
  replace (datagrams
             match value (while_true float_repr script t0) with
             | Running _ => []
             | Exited => [CapRelease; DestroyAllWindows]
             end) with (@nil (list byte))
    by (destruct (value (while_true float_repr script t0)); reflexivity).
  rewrite app_nil_r. simpl app.
  generalize t0 as t. induction script as [|env script IH]; intro t.
  - reflexivity.
  - rewrite while_true_trace, datagrams_app, iteration_datagrams.
    simpl executed. destruct (quits env); simpl.
    + reflexivity.
    + now rewrite IH.
Qed.

(** X5.  Accounting of a run.  With [ran] the passes up to the first one
    that quits: one capture attempt per pass of [ran]; one inference, one
    preview, one key poll and two clock readings per pass of [ran] that
    captured a frame (plus the clock reading of the set-up); one [sendto]
    per pass of [ran] that captured a frame and got a pose. *)
Theorem run_accounting (t0 : float) (script : list Env) :
  let tr := trace (main float_repr t0 script) in
  let ran := executed script in
  List.length (filter is_cap_read tr) = List.length ran /\
  List.length (filter is_pose_process tr)
  = List.length (filter captured ran) /\
  List.length (filter is_imshow tr) = List.length (filter captured ran) /\
  List.length (filter is_wait_key tr) = List.length (filter captured ran) /\
  List.length (filter is_time tr)
  = (1 + 2 * List.length (filter captured ran))%nat /\
  List.length (sendtos tr) = List.length (filter detected ran) /\
  (List.length ran <= List.length script)%nat.
Proof.
  intros tr ran. unfold tr, sendtos.
  rewrite main_trace, !filter_app, !length_app.
  assert (Htail : forall p, p CapRelease = false ->
            p DestroyAllWindows = false ->
            List.length
              (filter p
                 match value (while_true float_repr script t0) with
                 | Running _ => []
                 | Exited => [CapRelease; DestroyAllWindows]
                 end) = 0%nat).
  { intros p H1 H2. destruct (value (while_true float_repr script t0));
      simpl; rewrite ?H1, ?H2; reflexivity. }
  rewrite !Htail by reflexivity.
  rewrite (while_true_count float_repr is_cap_read (fun _ => 1%nat))
    by (intros env t; apply (iteration_counts float_repr env t)).
  rewrite (while_true_count float_repr is_pose_process
             (fun env => if captured env then 1%nat else 0%nat))
    by (intros env t; apply (iteration_counts float_repr env t)).
  rewrite (while_true_count float_repr is_imshow
             (fun env => if captured env then 1%nat else 0%nat))
    by (intros env t; apply (iteration_counts float_repr env t)).
  rewrite (while_true_count float_repr is_wait_key
             (fun env => if captured env then 1%nat else 0%nat))
    by (intros env t; apply (iteration_counts float_repr env t)).
  rewrite (while_true_count float_repr is_time
             (fun env => if captured env then 2%nat else 0%nat))
    by (intros env t; apply (iteration_counts float_repr env t)).
  rewrite (while_true_count float_repr is_sendto
             (fun env => if detected env then 1%nat else 0%nat))
    by (intros env t; apply (iteration_counts float_repr env t)).
  rewrite list_sum_ones, !list_sum_indicator. fold ran.
  pose proof (length_executed script). fold ran in H.
  simpl. repeat split; lia.
Qed.

(** X6.  Camera and window are released exactly when the loop was left,
    and then once each, camera first, as the last two calls of the run;
    nothing before them in the trace is a release. *)
Theorem release_iff_exited (t0 : float) (script : list Env) :
  (In CapRelease (trace (main float_repr t0 script))
   <-> value (main float_repr t0 script) = Exited) /\
  (In DestroyAllWindows (trace (main float_repr t0 script))
   <-> value (main float_repr t0 script) = Exited) /\
  (value (main float_repr t0 script) = Exited ->
   exists body,
     trace (main float_repr t0 script)
     = (body ++ [CapRelease; DestroyAllWindows])%list /\
     ~ In CapRelease body /\ ~ In DestroyAllWindows body).
Proof.
  assert (Hbody : Forall not_release
                    (setup_trace t0 ++ trace (while_true float_repr script t0))).
  { apply Forall_app. split.
    - repeat (constructor; try (split; discriminate)).
    - apply while_true_Forall, iteration_not_release. }
  rewrite Forall_forall in Hbody.
  assert (Hno1 : ~ In CapRelease
                   (setup_trace t0 ++ trace (while_true float_repr script t0)))
    by (intro Hin; destruct (Hbody _ Hin) as [H _]; now apply H).
  assert (Hno2 : ~ In DestroyAllWindows
                   (setup_trace t0 ++ trace (while_true float_repr script t0)))
    by (intro Hin; destruct (Hbody _ Hin) as [_ H]; now apply H).
  rewrite main_value, main_trace, app_assoc.
  destruct (value (while_true float_repr script t0)) as [t|]; split; [|split| |split].
  - rewrite app_nil_r. split; [intro Hin; now destruct (Hno1 Hin) | discriminate].
  - rewrite app_nil_r. split; [intro Hin; now destruct (Hno2 Hin) | discriminate].
  - discriminate.
  - split; [reflexivity|]. intros _. apply in_or_app. right. simpl. auto.
  - split; [reflexivity|]. intros _. apply in_or_app. right. simpl. auto.
  - intros _. eexists. split; [reflexivity|]. split; assumption.
Qed.

(** X7.  A pass that finds at least the frame period gone since the
    stored timestamp does not sleep: its pacing is two clock readings and
    nothing else. *)
Theorem slow_pass_does_not_sleep (env : Env) (t : float) :
  (frame_time <=? env_time1 env - t)%float = true ->
  trace (pace env t) = [TimeTime (env_time1 env); TimeTime (env_time2 env)] /\
  sleeps (trace (iteration float_repr env t)) = [].
Proof.
  intro Hslow. apply Binary64Order.leb_not_ltb in Hslow.
  assert (Hpace : trace (pace env t)
                  = [TimeTime (env_time1 env); TimeTime (env_time2 env)])
    by (rewrite pace_eq, trace_pair, Hslow; reflexivity).
  split; [exact Hpace|].
  destruct (env_frame env) as [img|] eqn:Hf.
  - destruct (shape img) as [[h w] c] eqn:Hs.
    rewrite (iteration_trace_captured float_repr env t img h w c Hf Hs), Hpace.
    destruct (env_pose env) as [landmarks|];
      [destruct (env_send_error env)|]; reflexivity.
  - now rewrite (iteration_capture_failed float_repr env t Hf).
Qed.

(** X8.  Within a pass the send comes before the pacing: whatever the
    pass sends is sent before the pacer's first clock reading, and between
    that reading and the end of the pass there are only the sleep, the
    second reading, the preview and the key poll.  Throttling never holds
    back the datagram of the current frame. *)
Theorem send_precedes_pacing (env : Env) (t : float) (img : Image) :
  env_frame env = Some img ->
  exists before img',
    trace (iteration float_repr env t)
    = (before ++ trace (pace env t)
       ++ [ImShow "Image" img'; WaitKey 1 (env_key env)])%list /\
    sleeps before = [] /\ filter is_time before = [] /\
    sendtos (trace (pace env t)) = [] /\
    sendtos (trace (iteration float_repr env t)) = sendtos before.
Proof.
  intro Hf. destruct (shape img) as [[h w] c] eqn:Hs.
  rewrite (iteration_trace_captured float_repr env t img h w c Hf Hs).
  eexists. eexists. split; [rewrite app_assoc; reflexivity|].
  rewrite pace_eq, trace_pair.
  destruct (env_pose env) as [landmarks|];
    [destruct (env_send_error env)|];
    destruct (env_time1 env - t <? frame_time)%float;
    repeat split; reflexivity.
Qed.

(** X9.  While the loop runs, the stored timestamp is the second clock
    reading of the last pass that captured a frame, or the initial one if
    none did: passes with a failed capture leave it alone, and no earlier
    timestamp enters the new one (no catching up). *)
Theorem stored_timestamp_is_last_captured (script : list Env) (t t' : float) :
  value (while_true float_repr script t) = Running t' ->
  t' = last_frame_time_after script t.
Proof.
  unfold last_frame_time_after.
  revert t. induction script as [|env script IH]; intros t Hrun.
  - simpl in Hrun. now injection Hrun as <-.
  - rewrite while_true_value in Hrun. simpl.
    destruct (quits env); [discriminate Hrun | exact (IH _ Hrun)].
Qed.
End RunProperties.

(** * The further properties on concrete runs *)

(** Six passes: a detection, a failed capture, a detection whose send
    raises, a pass without pose, a pass during which [q] is pressed, and one
    more detection that is never reached. *)
Lemma run_datagrams_witness :
  datagrams
    (trace (main repr_example 100
              [env_detected; env_capture_failed; env_unreachable;
               env_no_pose; env_quit; env_detected]))
  = [str_encode "[640.0, 360.0, 128.0]"].
Proof.
  rewrite (run_datagrams repr_example 100
             [env_detected; env_capture_failed; env_unreachable;
              env_no_pose; env_quit; env_detected]).
  reflexivity.
Defined.

Lemma run_accounting_witness :
  List.length
    (filter is_cap_read
       (trace (main repr_example 100
                 [env_detected; env_capture_failed; env_unreachable;
                  env_no_pose; env_quit; env_detected]))) = 5%nat /\
  List.length
    (sendtos
       (trace (main repr_example 100
                 [env_detected; env_capture_failed; env_unreachable;
                  env_no_pose; env_quit; env_detected]))) = 2%nat.
Proof.
  pose proof (run_accounting repr_example 100
                [env_detected; env_capture_failed; env_unreachable;
                 env_no_pose; env_quit; env_detected]) as H.
  cbv zeta in H. destruct H as (H1 & _ & _ & _ & _ & H6 & _).
  split; [rewrite H1 | rewrite H6]; reflexivity.
Defined.

Lemma run_sends_to_server_only_witness :
  In (SockSendto (str_encode "[640.0, 360.0, 128.0]") serverAddressPort None)
     (trace (main repr_example 100 [env_detected])) /\
  serverAddressPort = ("192.168.0.165", 5052).
Proof.
  assert (Hin : In (SockSendto (str_encode "[640.0, 360.0, 128.0]")
                               serverAddressPort None)
                   (trace (main repr_example 100 [env_detected])))
    by (vm_compute; repeat (first [left; reflexivity | right])).
  split; [exact Hin|].
  exact (run_sends_to_server_only repr_example 100 [env_detected] _ _ _ Hin).
Defined.

Lemma release_iff_exited_witness :
  value (main repr_example 100 [env_no_pose; env_quit]) = Exited /\
  In CapRelease (trace (main repr_example 100 [env_no_pose; env_quit])).
Proof.
  split; [reflexivity|].
  exact (proj2 (proj1 (release_iff_exited repr_example 100
                         [env_no_pose; env_quit])) eq_refl).
Defined.

Lemma slow_pass_does_not_sleep_witness :
  (frame_time <=? env_time1 env_no_pose - 100)%float = true /\
  trace (pace env_no_pose 100) = [TimeTime 100.5; TimeTime 100.5]%float.
Proof.
  split; [reflexivity|].
  exact (proj1 (slow_pass_does_not_sleep repr_example env_no_pose 100 eq_refl)).
Defined.

Lemma send_precedes_pacing_witness :
  env_frame env_unreachable = Some frame_720p /\
  exists before img',
    trace (iteration repr_example env_unreachable 100)
    = (before ++ trace (pace env_unreachable 100)
       ++ [ImShow "Image" img'; WaitKey 1 (-1)])%list /\
    sleeps before = [] /\ filter is_time before = [] /\
    sendtos (trace (pace env_unreachable 100)) = [] /\
    sendtos (trace (iteration repr_example env_unreachable 100))
    = sendtos before.
Proof.
  split; [reflexivity|].
  exact (send_precedes_pacing repr_example env_unreachable 100 frame_720p
           eq_refl).
Defined.

Lemma stored_timestamp_is_last_captured_witness :
  value (while_true repr_example
           [env_detected; env_capture_failed; env_capture_failed] 100)
  = Running 0x1.9022222222222p+6 /\
  0x1.9022222222222p+6%float
  = last_frame_time_after
      [env_detected; env_capture_failed; env_capture_failed] 100.
Proof.
  split; [reflexivity|].
  exact (stored_timestamp_is_last_captured repr_example
           [env_detected; env_capture_failed; env_capture_failed]
           100%float 0x1.9022222222222p+6%float eq_refl).
Defined.

(** * Rounding errors of binary64 arithmetic

    The inverse of the mapping is computed in binary64 like the mapping
    itself, so recovery of a coordinate is a statement about four rounded
    operations.  The bounds below are proved on the Standard Library's
    specification of rounding to nearest ([binary_round_aux]): the float an
    operation returns is at most [unit_roundoff * |v| + eta_min] away from
    its exact result [v], as long as [v] is below the overflow
    threshold. *)

Module Binary64Error.

Lemma shr_record_of_loc_of (N D : Z) :
  0 < D -> shr_record_of_loc (N / D) (loc_of (N mod D) D) = rec_of N D.
Proof.
  intro HD. unfold loc_of, rec_of.
  pose proof (Z.mod_pos_bound N D HD) as Hr.
  set (r := N mod D) in *. set (q := N / D).
  destruct (Z.eqb_spec r 0) as [E|E];
    destruct (Z.compare_spec (2 * r) D) as [C|C|C];
    destruct (Z.leb_spec D (2 * r));
    destruct (Z.eqb_spec (2 * r) D); try lia; reflexivity.
Qed.

Lemma loc_of_shr_record_rec_of (N D : Z) :
  0 < D -> loc_of_shr_record (rec_of N D) = loc_of (N mod D) D.
Proof.
  intro HD. unfold loc_of, rec_of, loc_of_shr_record.
  pose proof (Z.mod_pos_bound N D HD) as Hr.
  set (r := N mod D) in *. set (q := N / D).
  destruct (Z.eqb_spec r 0) as [E|E];
    destruct (Z.compare_spec (2 * r) D) as [C|C|C];
    destruct (Z.leb_spec D (2 * r));
    destruct (Z.eqb_spec (2 * r) D); try lia; reflexivity.
Qed.

Lemma shr_1_spec (m : Z) (r s : bool) :
  0 <= m ->
  shr_1 {| shr_m := m; shr_r := r; shr_s := s |}
  = {| shr_m := m / 2; shr_r := (m mod 2 =? 1); shr_s := r || s |}.
Proof.
  intro Hm.
  assert (Hdm : forall q b, 0 <= b < 2 -> m = 2 * q + b ->
                  m / 2 = q /\ m mod 2 = b).
  { intros q b Hb E. split.
    - symmetry. apply (Z.div_unique m 2 q b); lia.
    - symmetry. apply (Z.mod_unique m 2 q b); lia. }
  destruct m as [|[p|p|]|p]; try lia; unfold shr_1.
  - reflexivity.
  - destruct (Hdm (Z.pos p) 1) as [-> ->]; [lia | lia | reflexivity].
  - destruct (Hdm (Z.pos p) 0) as [-> ->]; [lia | lia | reflexivity].
  - destruct (Hdm 0 1) as [-> ->]; [lia | lia | reflexivity].
Qed.

Lemma shr_1_rec_of (N D : Z) :
  0 <= N -> 0 < D -> shr_1 (rec_of N D) = rec_of N (2 * D).
Proof.
  intros HN HD. unfold rec_of.
  pose proof (Z.mod_pos_bound N D HD) as Hr.
  assert (Hq : 0 <= N / D) by (apply Z.div_pos; lia).
  assert (Hdiv : N / (2 * D) = N / D / 2).
  { rewrite (Z.mul_comm 2 D). symmetry. apply Z.div_div; lia. }
  assert (Hmod : N mod (2 * D) = N mod D + D * ((N / D) mod 2)).
  { rewrite (Z.mul_comm 2 D). apply Z.rem_mul_r; lia. }
  rewrite Hdiv, Hmod, (shr_1_spec _ _ _ Hq).
  pose proof (Z.mod_pos_bound (N / D) 2 ltac:(lia)) as Hb.
  set (q := N / D) in *. set (r := N mod D) in *. set (b := q mod 2) in *.
  assert (Hb01 : b = 0 \/ b = 1) by lia. clearbody b r q.
  f_equal; destruct Hb01 as [-> | ->];
    rewrite ?Z.mul_0_r, ?Z.mul_1_r, ?Z.add_0_r;
    destruct (Z.leb_spec D (2 * r)); destruct (Z.eqb_spec r 0);
    destruct (Z.eqb_spec (2 * r) D);
    try destruct (Z.leb_spec (2 * D) (2 * r));
    try destruct (Z.leb_spec (2 * D) (2 * (r + D)));
    try destruct (Z.eqb_spec (r + D) 0);
    try destruct (Z.eqb_spec (2 * r) (2 * D));
    try destruct (Z.eqb_spec (2 * (r + D)) (2 * D));
    try reflexivity; try lia.
Qed.

Lemma pow2_xO (p : positive) : 2 ^ Z.pos p~0 = 2 ^ Z.pos p * 2 ^ Z.pos p.
Proof. rewrite Pos2Z.inj_xO, <- Z.pow_add_r by lia. f_equal. lia. Qed.

Lemma pow2_xI (p : positive) : 2 ^ Z.pos p~1 = 2 * (2 ^ Z.pos p * 2 ^ Z.pos p).
Proof.
  rewrite Pos2Z.inj_xI, <- Z.pow_add_r, <- Z.pow_succ_r by lia. f_equal. lia.
Qed.

Lemma iter_shr_1_rec_of (p : positive) (N D : Z) :
  0 <= N -> 0 < D ->
  SpecFloat.iter_pos shr_1 p (rec_of N D) = rec_of N (D * 2 ^ Z.pos p).
Proof.
  intro HN. revert D.
  induction p as [p IH|p IH|]; intros D HD; cbn [SpecFloat.iter_pos].
  - assert (0 < 2 ^ Z.pos p) by (apply Z.pow_pos_nonneg; lia).
    rewrite shr_1_rec_of, IH, IH by nia.
    f_equal. rewrite pow2_xI. ring.
  - assert (0 < 2 ^ Z.pos p) by (apply Z.pow_pos_nonneg; lia).
    rewrite IH, IH by nia.
    f_equal. rewrite pow2_xO. ring.
  - rewrite shr_1_rec_of by lia. f_equal. lia.
Qed.

Lemma shr_rec_of (N D e n : Z) :
  0 <= N -> 0 < D -> 0 <= n ->
  shr (rec_of N D) e n = (rec_of N (D * 2 ^ n), e + n).
Proof.
  intros HN HD Hn. unfold shr. destruct n as [|p|p]; try lia.
  - rewrite Z.pow_0_r, Z.mul_1_r, Z.add_0_r. reflexivity.
  - now rewrite iter_shr_1_rec_of.
Qed.

Lemma round_nearest_even_bounds (N D : Z) :
  0 <= N -> 0 < D ->
  let m := round_nearest_even (N / D) (loc_of (N mod D) D) in
  N / D <= m <= N / D + 1 /\ 2 * Z.abs (m * D - N) <= D.
Proof.
  intros HN HD m. unfold m, round_nearest_even, loc_of.
  pose proof (Z.mod_pos_bound N D HD) as Hr.
  pose proof (Z.div_mod N D ltac:(lia)) as Hdm.
  set (q := N / D) in *. set (r := N mod D) in *. clearbody q r.
  destruct (Z.eqb_spec r 0) as [E|E]; [nia|].
  destruct (Z.compare_spec (2 * r) D) as [C|C|C].
  - destruct (Z.even q); nia.
  - nia.
  - nia.
Qed.

Lemma Zdigits2_nonneg (m : Z) : 0 <= Zdigits2 m.
Proof. destruct m; simpl; lia. Qed.

Lemma Zdigits2_bounds (m : Z) :
  0 < m -> 2 ^ (Zdigits2 m - 1) <= m < 2 ^ Zdigits2 m.
Proof.
  destruct m as [|p|p]; try lia. intros _. apply Binary64.digits2_bounds.
Qed.

Lemma Zdigits2_unique (m d : Z) :
  0 < m -> 2 ^ (d - 1) <= m < 2 ^ d -> Zdigits2 m = d.
Proof.
  intros Hm [Hlo Hhi]. pose proof (Zdigits2_bounds m Hm) as [Blo Bhi].
  pose proof (Zdigits2_nonneg m) as Hn.
  assert (Hd : 0 < d).
  { destruct (Z_lt_le_dec 0 d) as [|Hle]; [assumption|].
    assert (2 ^ d <= 1).
    { destruct (Z.eq_dec d 0) as [->|]; [simpl; lia|].
      rewrite Z.pow_neg_r by lia. lia. }
    lia. }
  destruct (Z_lt_le_dec (Zdigits2 m) d) as [Hlt|Hge].
  - assert (2 ^ Zdigits2 m <= 2 ^ (d - 1)) by (apply Z.pow_le_mono_r; lia). lia.
  - destruct (Z_lt_le_dec d (Zdigits2 m)) as [Hlt|Hle]; [|lia].
    assert (2 ^ d <= 2 ^ (Zdigits2 m - 1)) by (apply Z.pow_le_mono_r; lia). lia.
Qed.

Lemma Zdigits2_le (m d : Z) : 0 <= d -> 0 <= m < 2 ^ d -> Zdigits2 m <= d.
Proof.
  intros Hd [H0 Hlt]. destruct (Z.eq_dec m 0) as [->|Hne]; [simpl; lia|].
  pose proof (Zdigits2_bounds m ltac:(lia)) as [Blo _].
  destruct (Z_lt_le_dec d (Zdigits2 m)) as [H|H]; [|lia].
  assert (2 ^ d <= 2 ^ (Zdigits2 m - 1)) by (apply Z.pow_le_mono_r; lia). lia.
Qed.

Lemma rec_of_exact (m : Z) :
  rec_of m 1 = {| shr_m := m; shr_r := false; shr_s := false |}.
Proof.
  unfold rec_of. rewrite Z.div_1_r, Z.mod_1_r. reflexivity.
Qed.

(** Rounding the quotient [N / D] at exponent [e], given with its
    location: the result is a zero or a canonical finite float, one of the
    two neighbours on the grid of spacing [2 ^ et], at most half a step
    away. *)
Lemma binary_round_aux_quotient (s : bool) (N D e : Z) :
  0 <= N -> 0 < D ->
  let m := N / D in
  let et := fexp prec emax (Zdigits2 m + e) in
  e <= et -> Zdigits2 m + e <= 1023 ->
  exists m' e',
    binary_round_aux prec emax s m e (loc_of (N mod D) D) = SF_of s m' e' /\
    0 <= m' /\ et <= e' /\
    2 * Z.abs (m' * 2 ^ (e' - e) * D - N) <= 2 ^ (et - e) * D /\
    (m' = 0 \/ (fexp prec emax (Zdigits2 m' + e') = e' /\ e' <= 971)).
Proof.
  intros HN HD m et Het Hmag.
  assert (Hm0 : 0 <= m) by (apply Z.div_pos; lia).
  set (k := et - e). assert (Hk : 0 <= k) by lia.
  assert (Hpk : 0 < 2 ^ k) by (apply Z.pow_pos_nonneg; lia).
  set (D' := D * 2 ^ k). assert (HD' : 0 < D') by (apply Z.mul_pos_pos; lia).
  set (m1 := N / D').
  assert (Hm1 : m1 = m / 2 ^ k) by (unfold m1, m, D'; symmetry; apply Z.div_div; lia).
  assert (Hm1pos : 0 <= m1) by (apply Z.div_pos; lia).
  (* first shift *)
  unfold binary_round_aux, shr_fexp.
  fold et. replace (et - e) with k by reflexivity.
  rewrite (shr_record_of_loc_of N D HD
             : shr_record_of_loc m (loc_of (N mod D) D) = rec_of N D).
  rewrite (shr_rec_of N D e k HN HD Hk).
  fold D'. replace (e + k) with et by (unfold k; lia).
  rewrite (loc_of_shr_record_rec_of N D' HD').
  change (shr_m (rec_of N D')) with m1.
  pose proof (round_nearest_even_bounds N D' HN HD') as Hrnd.
  cbv zeta in Hrnd. fold m1 in Hrnd.
  set (m2 := round_nearest_even m1 (loc_of (N mod D') D')) in *.
  destruct Hrnd as [Hm2 Herr].
  (* size of the shifted mantissa *)
  assert (F1 : m1 < 2 ^ 53 /\ (-1074 < et -> 2 ^ 52 <= m1)).
  { rewrite Hm1. unfold et, fexp, SpecFloat.emin, prec, emax in *.
    destruct (Z.eq_dec m 0) as [E0|E0].
    - rewrite E0 in *. simpl Zdigits2 in *. rewrite Z.div_0_l by lia.
      split; [lia | intro; lia].
    - pose proof (Zdigits2_bounds m ltac:(lia)) as [Blo Bhi].
      pose proof (Zdigits2_nonneg m) as Hdn.
      set (d := Zdigits2 m) in *.
      split.
      + apply Z.div_lt_upper_bound; [lia|].
        assert (2 ^ d <= 2 ^ (k + 53)) by (apply Z.pow_le_mono_r; unfold k; lia).
        rewrite Z.pow_add_r in H by lia. lia.
      + intro Hnorm. assert (Hk' : k = d - 53) by (unfold k; lia).
        apply Z.div_le_lower_bound; [lia|].
        replace (d - 1) with (k + 52) in Blo by lia.
        rewrite Z.pow_add_r in Blo by lia. lia. }
  destruct F1 as [F1 F2].
  assert (Het_min : -1074 <= et)
    by (unfold et, fexp, SpecFloat.emin, prec, emax; lia).
  assert (Het_max : et <= 970)
    by (unfold et, fexp, SpecFloat.emin, prec, emax in *; lia).
  assert (Hex : shr_record_of_loc m2 loc_Exact = rec_of m2 1)
    by (rewrite rec_of_exact; reflexivity).
  rewrite Hex.
  assert (Hm2pos : 0 <= m2) by lia.
  destruct (Z.eq_dec m2 (2 ^ 53)) as [Etop|Ntop].
  - (* the mantissa carried into a 54th bit *)
    assert (Hd2 : Zdigits2 m2 = 54)
      by (apply Zdigits2_unique; rewrite Etop; simpl; lia).
    assert (Hk2 : fexp prec emax (Zdigits2 m2 + et) - et = 1)
      by (rewrite Hd2; unfold fexp, SpecFloat.emin, prec, emax; lia).
    rewrite Hk2, (shr_rec_of m2 1 et 1) by lia.
    exists (2 ^ 52), (et + 1).
    split.
    { unfold rec_of. cbn [shr_m]. rewrite Etop.
      change (2 ^ 53 / (1 * 2 ^ 1)) with (2 ^ 52).
      change (2 ^ 52) with 4503599627370496. cbn [SF_of].
      destruct (Z.leb_spec (et + 1) (emax - prec)) as [|Hbad]; [reflexivity|].
      unfold emax, prec in Hbad. lia. }
    split; [simpl; lia|]. split; [lia|]. split.
    { replace (et + 1 - e) with (1 + k) by (unfold k; lia).
      rewrite Z.pow_add_r by lia.
      replace (2 ^ 52 * (2 ^ 1 * 2 ^ k) * D) with (m2 * D')
        by (rewrite Etop; unfold D'; change (2 ^ 53) with (2 ^ 52 * 2 ^ 1); ring).
      fold k. replace (2 ^ k * D) with D' by (unfold D'; ring). exact Herr. }
    right. split; [|lia].
    change (Zdigits2 (2 ^ 52)) with 53.
    unfold fexp, SpecFloat.emin, prec, emax. lia.
  - assert (Hlt : m2 < 2 ^ 53) by lia.
    assert (Hd2 : Zdigits2 m2 <= 53) by (apply Zdigits2_le; lia).
    assert (Hd2' : -1074 < et -> Zdigits2 m2 = 53).
    { intro Hn. apply Zdigits2_unique; [specialize (F2 Hn); lia|].
      specialize (F2 Hn). simpl. lia. }
    pose proof (Zdigits2_nonneg m2) as Hd2n.
    assert (Hfe : fexp prec emax (Zdigits2 m2 + et) = et).
    { unfold fexp, SpecFloat.emin, prec, emax.
      destruct (Z.eq_dec et (-1074)) as [E|E]; [lia|].
      rewrite Hd2' by lia. lia. }
    rewrite Hfe, Z.sub_diag, (shr_rec_of m2 1 et 0) by lia.
    rewrite Z.pow_0_r, Z.mul_1_r, Z.add_0_r, rec_of_exact. cbn [shr_m].
    exists m2, et.
    split.
    { unfold SF_of. destruct m2 as [|p|p]; try lia; try reflexivity.
      destruct (Z.leb_spec et (emax - prec)) as [|Hbad]; [reflexivity|].
      unfold emax, prec in Hbad. lia. }
    split; [lia|]. split; [lia|]. split.
    { fold k. replace (m2 * 2 ^ k * D) with (m2 * D') by (unfold D'; ring).
      replace (2 ^ k * D) with D' by (unfold D'; ring). exact Herr. }
    destruct (Z.eq_dec m2 0); [now left | right]. split; [exact Hfe | lia].
Qed.

(** ** What a float is worth *)

Lemma pow2_pos (e : Z) : (0 < pow2 e)%Q.
Proof. apply Qpower_0_lt. reflexivity. Qed.

Lemma unit_roundoff_pow2 : (pow2 (-53) == unit_roundoff)%Q.
Proof. reflexivity. Qed.

Lemma unit_roundoff_pos : (0 < unit_roundoff)%Q.
Proof. reflexivity. Qed.

Lemma pow2_add (a b : Z) : (pow2 (a + b) == pow2 a * pow2 b)%Q.
Proof. apply Qpower_plus. discriminate. Qed.

Lemma pow2_inject (n : Z) : 0 <= n -> (inject_Z (2 ^ n) == pow2 n)%Q.
Proof. intro Hn. apply (Zpower_Qpower 2 n Hn). Qed.

Lemma pow2_le (a b : Z) : a <= b -> (pow2 a <= pow2 b)%Q.
Proof.
  intro Hab. replace b with (a + (b - a)) by lia. rewrite pow2_add.
  rewrite <- (pow2_inject (b - a)) by lia.
  assert (1 <= 2 ^ (b - a)) by (apply (Z.pow_le_mono_r 2 0 (b - a)); lia).
  assert (H1 : (1 <= inject_Z (2 ^ (b - a)))%Q)
    by (change 1%Q with (inject_Z 1); rewrite <- Zle_Qle; lia).
  pose proof (pow2_pos a). nra.
Qed.

Lemma SF2Q_SF_of (s : bool) (m e : Z) :
  0 <= m -> (SF2Q (SF_of s m e) == sign_Q s * (inject_Z m * pow2 e))%Q.
Proof.
  intro Hm. destruct m as [|p|p]; try lia; simpl; ring.
Qed.

Lemma SFfinite_SF_of (s : bool) (m e : Z) : 0 <= m -> SFfinite (SF_of s m e) = true.
Proof. intro Hm. destruct m; try lia; reflexivity. Qed.

(** From the integer bound of the rounding lemma to a bound on values. *)
Lemma scaled_bound (m' e' e et N D : Z) :
  0 < D -> et <= e' -> e <= et ->
  2 * Z.abs (m' * 2 ^ (e' - e) * D - N) <= 2 ^ (et - e) * D ->
  (Qabs (inject_Z m' * pow2 e' - inject_Z N / inject_Z D * pow2 e)
   <= (1 # 2) * pow2 et)%Q.
Proof.
  intros HD He' He Hb.
  assert (HDq : (0 < inject_Z D)%Q)
    by (change 0%Q with (inject_Z 0); rewrite <- Zlt_Qlt; lia).
  set (P := 2 ^ (e' - e)) in *. set (K := 2 ^ (et - e)) in *.
  pose proof (pow2_pos e) as Ha.
  assert (EP : (pow2 e' == pow2 e * inject_Z P)%Q).
  { unfold P. rewrite pow2_inject, <- pow2_add by lia.
    replace (e + (e' - e)) with e' by lia. reflexivity. }
  assert (EK : (pow2 et == pow2 e * inject_Z K)%Q).
  { unfold K. rewrite pow2_inject, <- pow2_add by lia.
    replace (e + (et - e)) with et by lia. reflexivity. }
  rewrite EP, EK. set (a := pow2 e) in *.
  assert (Hc : (0 < a / (2 * inject_Z D))%Q).
  { apply Qlt_shift_div_l; [lra|]. lra. }
  assert (Hz1 : (inject_Z (2 * (m' * P * D - N)) <= inject_Z (K * D))%Q)
    by (rewrite <- Zle_Qle; lia).
  assert (Hz2 : (inject_Z (- (K * D)) <= inject_Z (2 * (m' * P * D - N)))%Q)
    by (rewrite <- Zle_Qle; lia).
  assert (Hinj : (inject_Z (m' * P * D - N)
                  == inject_Z m' * inject_Z P * inject_Z D - inject_Z N)%Q).
  { unfold Z.sub. rewrite inject_Z_plus, inject_Z_opp, !inject_Z_mult. ring. }
  rewrite inject_Z_mult, Hinj, inject_Z_mult in Hz1.
  rewrite inject_Z_opp, !inject_Z_mult, Hinj in Hz2.
  change (inject_Z 2) with 2%Q in *.
  apply Qabs_Qle_condition. split.
  - apply (proj2 (Qmult_le_l _ _ _ Hc)) in Hz2.
    assert (E1 : (a / (2 * inject_Z D) * - (inject_Z K * inject_Z D)
                  == - ((1 # 2) * (a * inject_Z K)))%Q) by (field; lra).
    assert (E2 : (a / (2 * inject_Z D)
                  * (2 * (inject_Z m' * inject_Z P * inject_Z D - inject_Z N))
                  == inject_Z m' * (a * inject_Z P) - inject_Z N / inject_Z D * a)%Q)
      by (field; lra).
    rewrite E1, E2 in Hz2. exact Hz2.
  - apply (proj2 (Qmult_le_l _ _ _ Hc)) in Hz1.
    assert (E1 : (a / (2 * inject_Z D) * (inject_Z K * inject_Z D)
                  == (1 # 2) * (a * inject_Z K))%Q) by (field; lra).
    assert (E2 : (a / (2 * inject_Z D)
                  * (2 * (inject_Z m' * inject_Z P * inject_Z D - inject_Z N))
                  == inject_Z m' * (a * inject_Z P) - inject_Z N / inject_Z D * a)%Q)
      by (field; lra).
    rewrite E1, E2 in Hz1. exact Hz1.
Qed.

Lemma Qabs_sign_mult (s : bool) (x : Q) : (Qabs (sign_Q s * x) == Qabs x)%Q.
Proof.
  destruct s; unfold sign_Q.
  - setoid_replace (-1 * x)%Q with (- x)%Q by ring. apply Qabs_opp.
  - setoid_replace (1 * x)%Q with x by ring. reflexivity.
Qed.

Lemma half_pow2 (e : Z) : ((1 # 2) * pow2 e == pow2 (e - 1))%Q.
Proof.
  replace e with ((e - 1) + 1) at 1 by lia. rewrite pow2_add.
  change (pow2 1) with 2%Q. ring.
Qed.

Lemma quotient_ge_floor (N D : Z) :
  0 < D -> (inject_Z (N / D) <= inject_Z N / inject_Z D)%Q.
Proof.
  intro HD.
  assert (HDq : (0 < inject_Z D)%Q)
    by (change 0%Q with (inject_Z 0); rewrite <- Zlt_Qlt; lia).
  apply Qle_shift_div_l; [exact HDq|].
  rewrite <- inject_Z_mult, <- Zle_Qle.
  pose proof (Z.mul_div_le N D HD). lia.
Qed.

Lemma valid_SF_of (s : bool) (m e : Z) :
  0 <= m ->
  m = 0 \/ (fexp prec emax (Zdigits2 m + e) = e /\ e <= 971) ->
  valid_binary (SF_of s m e) = true.
Proof.
  intros Hm [->|[Hc He]]; [reflexivity|].
  destruct m as [|p|p]; try lia; [reflexivity|].
  cbn [SF_of SpecFloat.valid_binary]. unfold bounded, canonical_mantissa.
  change (Zdigits2 (Z.pos p)) with (Z.pos (digits2_pos p)) in Hc.
  rewrite Hc, Z.eqb_refl. cbn [andb].
  apply Z.leb_le. unfold emax, prec. lia.
Qed.

(** The standard model of one rounding: the float returned for the
    quotient [N / D] at exponent [e] is finite, valid, and within
    [unit_roundoff * v + eta_min] of the exact value [v]. *)
Lemma round_aux_standard (s : bool) (N D e : Z) :
  0 <= N -> 0 < D ->
  e <= fexp prec emax (Zdigits2 (N / D) + e) ->
  (inject_Z N / inject_Z D * pow2 e < pow2 1023)%Q ->
  let r := binary_round_aux prec emax s (N / D) e (loc_of (N mod D) D) in
  SFfinite r = true /\ valid_binary r = true /\
  (Qabs (SF2Q r - sign_Q s * (inject_Z N / inject_Z D * pow2 e))
   <= unit_roundoff * (inject_Z N / inject_Z D * pow2 e) + eta_min)%Q.
Proof.
  intros HN HD Het Hv r.
  set (m := N / D) in *. set (v := (inject_Z N / inject_Z D * pow2 e)%Q) in *.
  assert (Hm0 : 0 <= m) by (apply Z.div_pos; lia).
  pose proof (pow2_pos e) as Hpe.
  assert (Hvm : (inject_Z m * pow2 e <= v)%Q).
  { unfold v. pose proof (quotient_ge_floor N D HD) as Hq. fold m in Hq. nra. }
  assert (Hv0 : (0 <= v)%Q).
  { assert ((0 <= inject_Z m)%Q)
      by (change 0%Q with (inject_Z 0); rewrite <- Zle_Qle; lia). nra. }
  (* how large the value is where the mantissa is not zero *)
  assert (Hlow : 0 < m -> (pow2 (Zdigits2 m - 1 + e) <= v)%Q).
  { intro Hm. pose proof (Zdigits2_bounds m Hm) as [Blo _].
    pose proof (Zdigits2_nonneg m).
    assert (Zdigits2 m <> 0) by (destruct m; simpl; lia).
    rewrite pow2_add, <- pow2_inject by lia.
    assert ((inject_Z (2 ^ (Zdigits2 m - 1)) <= inject_Z m)%Q)
      by (rewrite <- Zle_Qle; lia).
    nra. }
  assert (Hmag : Zdigits2 m + e <= 1023).
  { destruct (Z.eq_dec m 0) as [E|E].
    - rewrite E in *. simpl Zdigits2 in *.
      unfold fexp, SpecFloat.emin, prec, emax in Het. lia.
    - destruct (Z_le_gt_dec (Zdigits2 m + e) 1023) as [|Hbig]; [assumption|].
      specialize (Hlow ltac:(lia)).
      assert ((pow2 1023 <= pow2 (Zdigits2 m - 1 + e))%Q) by (apply pow2_le; lia).
      lra. }
  destruct (binary_round_aux_quotient s N D e HN HD Het Hmag)
    as (m' & e' & Hr & Hm' & He' & Herr & Hcan).
  fold m in Hr, He', Herr. unfold r. rewrite Hr.
  split; [now apply SFfinite_SF_of|].
  split; [now apply valid_SF_of|].
  rewrite (SF2Q_SF_of s m' e' Hm').
  setoid_replace (sign_Q s * (inject_Z m' * pow2 e') - sign_Q s * v)%Q
    with (sign_Q s * (inject_Z m' * pow2 e' - v))%Q by ring.
  rewrite Qabs_sign_mult.
  set (et := fexp prec emax (Zdigits2 m + e)) in *.
  pose proof (scaled_bound m' e' e et N D HD He' Het Herr) as Hb. fold v in Hb.
  apply (Qle_trans _ _ _ Hb). rewrite half_pow2.
  assert (Hu : (0 <= unit_roundoff * v)%Q) by (pose proof unit_roundoff_pos; nra).
  assert (Heta : (0 < eta_min)%Q) by apply pow2_pos.
  destruct (Z.eq_dec et (-1074)) as [E|E].
  - rewrite E. change (pow2 (-1074 - 1)) with eta_min. lra.
  - assert (Hnorm : et = Zdigits2 m + e - 53)
      by (unfold et, fexp, SpecFloat.emin, prec, emax in *; lia).
    assert (Hmpos : 0 < m).
    { destruct (Z.eq_dec m 0) as [E0|E0]; [|lia].
      rewrite E0 in *. simpl Zdigits2 in *. lia. }
    specialize (Hlow Hmpos).
    replace (et - 1) with (-53 + (Zdigits2 m - 1 + e)) by lia.
    rewrite pow2_add, unit_roundoff_pow2.
    assert (Hupos : (0 < unit_roundoff)%Q) by exact unit_roundoff_pos.
    nra.
Qed.

Lemma inject_Z_pos_lt (n : Z) : 0 < n -> (0 < inject_Z n)%Q.
Proof. intro H. change 0%Q with (inject_Z 0). now rewrite <- Zlt_Qlt. Qed.

Lemma sign_Q_xorb (a b : bool) : (sign_Q (xorb a b) == sign_Q a * sign_Q b)%Q.
Proof. destruct a, b; reflexivity. Qed.

Lemma Qabs_SF2Q_finite (s : bool) (m : positive) (e : Z) :
  (Qabs (SF2Q (S754_finite s m e)) == inject_Z (Z.pos m) * pow2 e)%Q.
Proof.
  cbn [SF2Q].
  setoid_replace (sign_Q s * inject_Z (Z.pos m) * pow2 e)%Q
    with (sign_Q s * (inject_Z (Z.pos m) * pow2 e))%Q by ring.
  rewrite Qabs_sign_mult. apply Qabs_pos. pose proof (pow2_pos e).
  pose proof (inject_Z_pos_lt (Z.pos m) ltac:(lia)). nra.
Qed.

Lemma round_aux_exact_input (s : bool) (N e : Z) :
  binary_round_aux prec emax s N e loc_Exact
  = binary_round_aux prec emax s (N / 1) e (loc_of (N mod 1) 1).
Proof. now rewrite Z.div_1_r, Z.mod_1_r. Qed.

Lemma Zdigits2_mul_ge (a b : Z) :
  0 < a -> 0 < b -> Zdigits2 a + Zdigits2 b - 1 <= Zdigits2 (a * b).
Proof.
  intros Ha Hb.
  pose proof (Zdigits2_bounds a Ha) as [La _].
  pose proof (Zdigits2_bounds b Hb) as [Lb _].
  pose proof (Zdigits2_bounds (a * b) ltac:(nia)) as [_ Uab].
  pose proof (Zdigits2_nonneg a). pose proof (Zdigits2_nonneg b).
  assert (Zdigits2 a <> 0) by (destruct a; simpl; lia).
  assert (Zdigits2 b <> 0) by (destruct b; simpl; lia).
  pose proof (Zdigits2_nonneg (a * b)).
  destruct (Z_lt_le_dec (Zdigits2 (a * b)) (Zdigits2 a + Zdigits2 b - 1)) as [Hlt|]; [|lia].
  assert (2 ^ Zdigits2 (a * b) <= 2 ^ (Zdigits2 a - 1 + (Zdigits2 b - 1)))
    by (apply Z.pow_le_mono_r; lia).
  rewrite Z.pow_add_r in H4 by lia.
  assert (0 < 2 ^ (Zdigits2 a - 1)) by (apply Z.pow_pos_nonneg; lia).
  assert (0 < 2 ^ (Zdigits2 b - 1)) by (apply Z.pow_pos_nonneg; lia).
  nia.
Qed.

(** Multiplication of two finite floats. *)
Lemma SFmul_standard (x y : spec_float) :
  valid_binary x = true -> valid_binary y = true ->
  SFfinite x = true -> SFfinite y = true ->
  (Qabs (SF2Q x * SF2Q y) < pow2 1023)%Q ->
  SFfinite (SF64mul x y) = true /\
  (Qabs (SF2Q (SF64mul x y) - SF2Q x * SF2Q y)
   <= unit_roundoff * Qabs (SF2Q x * SF2Q y) + eta_min)%Q.
Proof.
  intros Vx Vy Fx Fy Hmag.
  assert (Hzero : (Qabs (0 - 0) <= unit_roundoff * Qabs 0 + eta_min)%Q).
  { pose proof (pow2_pos (-1075)) as He. fold eta_min in He.
    apply Qabs_Qle_condition. change (Qabs 0) with 0%Q. unfold unit_roundoff. lra. }
  destruct x as [sx|sx| |sx mx ex]; try discriminate Fx;
    destruct y as [sy|sy| |sy my ey]; try discriminate Fy.
  - split; [reflexivity|]. simpl SF2Q.
    setoid_replace (0 * 0)%Q with 0%Q by ring. exact Hzero.
  - split; [reflexivity|]. simpl SF64mul. cbn [SF2Q].
    setoid_replace (0 * (sign_Q sy * inject_Z (Z.pos my) * pow2 ey))%Q with 0%Q by ring.
    exact Hzero.
  - split; [reflexivity|]. simpl SF64mul. cbn [SF2Q].
    setoid_replace (sign_Q sx * inject_Z (Z.pos mx) * pow2 ex * 0)%Q with 0%Q by ring.
    exact Hzero.
  - unfold SF64mul, SFmul.
    rewrite round_aux_exact_input.
    set (N := Z.pos (mx * my)). set (e := ex + ey).
    assert (Hval : (SF2Q (S754_finite sx mx ex) * SF2Q (S754_finite sy my ey)
                    == sign_Q (xorb sx sy) * (inject_Z N / inject_Z 1 * pow2 e))%Q).
    { cbn [SF2Q]. unfold N, e. rewrite sign_Q_xorb, pow2_add, Pos2Z.inj_mul, inject_Z_mult.
      change (inject_Z 1) with 1%Q. field. }
    assert (Hv0 : (0 <= inject_Z N / inject_Z 1 * pow2 e)%Q).
    { pose proof (pow2_pos e). pose proof (inject_Z_pos_lt N ltac:(unfold N; lia)).
      change (inject_Z 1) with 1%Q.
      setoid_replace (inject_Z N / 1)%Q with (inject_Z N) by field. nra. }
    assert (Habs : (Qabs (SF2Q (S754_finite sx mx ex) * SF2Q (S754_finite sy my ey))
                    == inject_Z N / inject_Z 1 * pow2 e)%Q).
    { rewrite Hval, Qabs_sign_mult. now apply Qabs_pos. }
    rewrite Habs in Hmag |- *. rewrite Hval.
    simpl in Vx, Vy.
    apply Binary64.bounded_digits in Vx, Vy.
    destruct Vx as (dx1 & ex1 & dx2). destruct Vy as (dy1 & ey1 & dy2).
    assert (Hbits : e <= fexp prec emax (Zdigits2 (N / 1) + e)).
    { rewrite Z.div_1_r. unfold N. rewrite Pos2Z.inj_mul.
      pose proof (Zdigits2_mul_ge (Z.pos mx) (Z.pos my) ltac:(lia) ltac:(lia)) as Hd.
      change (Zdigits2 (Z.pos mx)) with (Z.pos (digits2_pos mx)) in Hd.
      change (Zdigits2 (Z.pos my)) with (Z.pos (digits2_pos my)) in Hd.
      unfold fexp, SpecFloat.emin, prec, emax, e. lia. }
    destruct (round_aux_standard (xorb sx sy) N 1 e ltac:(unfold N; lia) ltac:(lia)
                Hbits Hmag) as (Hf & _ & Herr).
    split; [exact Hf | exact Herr].
Qed.

Lemma eta_min_pos : (0 < eta_min)%Q.
Proof. apply pow2_pos. Qed.

Lemma exact_within (a b : Q) : (a == b)%Q -> (Qabs (a - b) <= unit_roundoff * Qabs b + eta_min)%Q.
Proof.
  intro E. pose proof eta_min_pos. pose proof unit_roundoff_pos. pose proof (Qabs_nonneg b).
  apply Qabs_Qle_condition. rewrite E. nra.
Qed.

Lemma shl_align_spec (p : positive) (e e' : Z) :
  exists mz, shl_align p e e' = (mz, Z.min e e') /\
             Z.pos mz = Z.pos p * 2 ^ (e - Z.min e e').
Proof.
  unfold shl_align. destruct (e' - e) as [|d|d] eqn:E.
  - exists p. replace (Z.min e e') with e by lia.
    rewrite Z.sub_diag, Z.pow_0_r. split; [reflexivity | lia].
  - exists p. replace (Z.min e e') with e by lia.
    rewrite Z.sub_diag, Z.pow_0_r. split; [reflexivity | lia].
  - exists (Pos.iter xO p d).
    assert (Hd : e - e' = Z.pos d) by (pose proof (Pos2Z.opp_pos d); lia).
    replace (Z.min e e') with e' by lia.
    split; [reflexivity|]. rewrite Binary64.iter_xO_value, Hd. reflexivity.
Qed.

Lemma Zdigits2_shift (m k : Z) :
  0 < m -> 0 <= k -> Zdigits2 (m * 2 ^ k) = Zdigits2 m + k.
Proof.
  intros Hm Hk. pose proof (Zdigits2_bounds m Hm) as [Lo Hi].
  pose proof (Zdigits2_nonneg m).
  assert (Zdigits2 m <> 0) by (destruct m; simpl; lia).
  assert (0 < 2 ^ k) by (apply Z.pow_pos_nonneg; lia).
  apply Zdigits2_unique; [nia|].
  replace (Zdigits2 m + k - 1) with (Zdigits2 m - 1 + k) by lia.
  rewrite !Z.pow_add_r by lia. nia.
Qed.

(** Rounding a positive integer mantissa at an exponent. *)
Lemma binary_round_standard (s : bool) (p : positive) (e : Z) :
  (inject_Z (Z.pos p) * pow2 e < pow2 1023)%Q ->
  let r := binary_round prec emax s p e in
  SFfinite r = true /\ valid_binary r = true /\
  (Qabs (SF2Q r - sign_Q s * (inject_Z (Z.pos p) * pow2 e))
   <= unit_roundoff * (inject_Z (Z.pos p) * pow2 e) + eta_min)%Q.
Proof.
  intros Hmag r. unfold r, binary_round.
  set (F := fexp prec emax (Z.pos (digits2_pos p) + e)).
  destruct (shl_align_spec p e F) as (mz & -> & Hmz).
  set (ez := Z.min e F) in *.
  rewrite round_aux_exact_input.
  assert (Hval : (inject_Z (Z.pos mz) / inject_Z 1 * pow2 ez
                  == inject_Z (Z.pos p) * pow2 e)%Q).
  { rewrite Hmz, inject_Z_mult, pow2_inject by (unfold ez; lia).
    change (inject_Z 1) with 1%Q.
    setoid_replace (inject_Z (Z.pos p) * pow2 (e - ez) / 1 * pow2 ez)%Q
      with (inject_Z (Z.pos p) * (pow2 (e - ez) * pow2 ez))%Q by field.
    rewrite <- pow2_add. replace (e - ez + ez) with e by lia. reflexivity. }
  assert (Hbits : ez <= fexp prec emax (Zdigits2 (Z.pos mz / 1) + ez)).
  { rewrite Z.div_1_r, Hmz, Zdigits2_shift by (unfold ez; lia).
    change (Zdigits2 (Z.pos p)) with (Z.pos (digits2_pos p)).
    replace (Z.pos (digits2_pos p) + (e - ez) + ez)
      with (Z.pos (digits2_pos p) + e) by lia.
    fold F. unfold ez. lia. }
  rewrite <- Hval in Hmag.
  destruct (round_aux_standard s (Z.pos mz) 1 ez ltac:(lia) ltac:(lia) Hbits Hmag)
    as (Hf & Hvalid & Herr).
  rewrite Hval in Herr. auto.
Qed.

Lemma binary_normalize_standard (M e : Z) :
  (Qabs (inject_Z M * pow2 e) < pow2 1023)%Q ->
  let r := binary_normalize prec emax M e false in
  SFfinite r = true /\ valid_binary r = true /\
  (Qabs (SF2Q r - inject_Z M * pow2 e)
   <= unit_roundoff * Qabs (inject_Z M * pow2 e) + eta_min)%Q.
Proof.
  intros Hmag r. unfold r, binary_normalize. pose proof (pow2_pos e) as Hpe.
  destruct M as [|p|p].
  - split; [reflexivity|]. split; [reflexivity|].
    apply exact_within. simpl SF2Q. change (inject_Z 0) with 0%Q. ring.
  - pose proof (inject_Z_pos_lt (Z.pos p) ltac:(lia)) as Hp.
    assert (Habs : (Qabs (inject_Z (Z.pos p) * pow2 e)
                    == inject_Z (Z.pos p) * pow2 e)%Q) by (apply Qabs_pos; nra).
    rewrite Habs in Hmag |- *.
    destruct (binary_round_standard false p e Hmag) as (Hf & Hv & Herr).
    split; [exact Hf|]. split; [exact Hv|].
    unfold sign_Q in Herr.
    setoid_replace (1 * (inject_Z (Z.pos p) * pow2 e))%Q
      with (inject_Z (Z.pos p) * pow2 e)%Q in Herr by ring.
    exact Herr.
  - pose proof (inject_Z_pos_lt (Z.pos p) ltac:(lia)) as Hp.
    assert (Hneg : (inject_Z (Z.neg p) * pow2 e
                    == - (inject_Z (Z.pos p) * pow2 e))%Q).
    { change (Z.neg p) with (- Z.pos p). rewrite inject_Z_opp. ring. }
    assert (Habs : (Qabs (inject_Z (Z.neg p) * pow2 e)
                    == inject_Z (Z.pos p) * pow2 e)%Q).
    { rewrite Hneg, Qabs_opp. apply Qabs_pos. nra. }
    rewrite Habs in Hmag |- *.
    destruct (binary_round_standard true p e Hmag) as (Hf & Hv & Herr).
    split; [exact Hf|]. split; [exact Hv|].
    unfold sign_Q in Herr. rewrite Hneg.
    setoid_replace (-1 * (inject_Z (Z.pos p) * pow2 e))%Q
      with (- (inject_Z (Z.pos p) * pow2 e))%Q in Herr by ring.
    exact Herr.
Qed.

Lemma inject_cond_Zopp (s : bool) (z : Z) :
  (inject_Z (cond_Zopp s z) == sign_Q s * inject_Z z)%Q.
Proof.
  destruct s; unfold cond_Zopp, sign_Q; [rewrite inject_Z_opp|]; ring.
Qed.

Lemma sign_Q_negb (s : bool) : (sign_Q (negb s) == - sign_Q s)%Q.
Proof. destruct s; reflexivity. Qed.

Lemma aligned_value (m : positive) (e ez : Z) :
  ez <= e ->
  (inject_Z (Z.pos (fst (shl_align m e ez))) * pow2 ez
   == inject_Z (Z.pos m) * pow2 e)%Q.
Proof.
  intro Hle. rewrite Binary64.shl_align_value, inject_Z_mult, pow2_inject by lia.
  rewrite <- Qmult_assoc, <- pow2_add. replace (e - ez + ez) with e by lia.
  reflexivity.
Qed.

(** Subtraction of two finite floats. *)
Lemma SFsub_standard (x y : spec_float) :
  valid_binary x = true -> valid_binary y = true ->
  SFfinite x = true -> SFfinite y = true ->
  (Qabs (SF2Q x - SF2Q y) < pow2 1023)%Q ->
  SFfinite (SF64sub x y) = true /\
  (Qabs (SF2Q (SF64sub x y) - (SF2Q x - SF2Q y))
   <= unit_roundoff * Qabs (SF2Q x - SF2Q y) + eta_min)%Q.
Proof.
  intros Vx Vy Fx Fy Hmag.
  destruct x as [sx|sx| |sx mx ex]; try discriminate Fx;
    destruct y as [sy|sy| |sy my ey]; try discriminate Fy.
  - split; [destruct sx, sy; reflexivity|].
    apply exact_within. destruct sx, sy; simpl; ring.
  - split; [reflexivity|]. apply exact_within.
    unfold SF64sub, SFsub. cbn [SF2Q]. rewrite sign_Q_negb. ring.
  - split; [reflexivity|]. apply exact_within.
    unfold SF64sub, SFsub. cbn [SF2Q]. ring.
  - unfold SF64sub, SFsub. cbv zeta.
    set (ez := Z.min ex ey).
    set (M := cond_Zopp sx (Z.pos (fst (shl_align mx ex ez)))
              - cond_Zopp sy (Z.pos (fst (shl_align my ey ez)))).
    assert (Hval : (inject_Z M * pow2 ez
                    == SF2Q (S754_finite sx mx ex) - SF2Q (S754_finite sy my ey))%Q).
    { unfold M, Z.sub. rewrite inject_Z_plus, inject_Z_opp, !inject_cond_Zopp.
      cbn [SF2Q].
      pose proof (aligned_value mx ex ez ltac:(unfold ez; lia)) as Ax.
      pose proof (aligned_value my ey ez ltac:(unfold ez; lia)) as Ay.
      set (ax := inject_Z (Z.pos (fst (shl_align mx ex ez)))) in *.
      set (ay := inject_Z (Z.pos (fst (shl_align my ey ez)))) in *.
      setoid_replace ((sign_Q sx * ax + - (sign_Q sy * ay)) * pow2 ez)%Q
        with (sign_Q sx * (ax * pow2 ez) - sign_Q sy * (ay * pow2 ez))%Q by ring.
      rewrite Ax, Ay. ring. }
    rewrite <- Hval in Hmag |- *.
    destruct (binary_normalize_standard M ez Hmag) as (Hf & _ & Herr).
    split; [exact Hf | exact Herr].
Qed.

Lemma new_location_loc_of (nb k : Z) :
  0 < nb -> 0 <= k < nb -> new_location nb k = loc_of k nb.
Proof.
  intros Hnb Hk. unfold new_location, new_location_even, new_location_odd, loc_of.
  destruct (Z.even nb) eqn:Ev; destruct (Z.eqb_spec k 0) as [E|E]; try reflexivity.
  f_equal.
  assert (Hodd : Z.odd nb = true) by (rewrite <- Z.negb_even, Ev; reflexivity).
  apply Z.odd_spec in Hodd. destruct Hodd as [c Hc].
  destruct (Z.compare_spec (2 * k + 1) nb) as [C|C|C];
    destruct (Z.compare_spec (2 * k) nb) as [C'|C'|C']; try reflexivity; lia.
Qed.

Lemma shift_case (m s : Z) :
  0 <= s ->
  match s with
  | Z.pos _ => Z.shiftl m s
  | 0 => m
  | Z.neg _ => 0
  end = m * 2 ^ s.
Proof.
  intro Hs. destruct s as [|p|p].
  - change (2 ^ 0) with 1. lia.
  - apply Z.shiftl_mul_pow2. lia.
  - lia.
Qed.

(** Division of a finite float by a finite float that is not zero. *)
Lemma SFdiv_standard (x : spec_float) (sy : bool) (my : positive) (ey : Z) :
  let y := S754_finite sy my ey in
  valid_binary x = true -> valid_binary y = true ->
  SFfinite x = true ->
  (Qabs (SF2Q x / SF2Q y) < pow2 1023)%Q ->
  SFfinite (SF64div x y) = true /\
  (Qabs (SF2Q (SF64div x y) - SF2Q x / SF2Q y)
   <= unit_roundoff * Qabs (SF2Q x / SF2Q y) + eta_min)%Q.
Proof.
  intros y Vx Vy Fx Hmag.
  pose proof (pow2_pos ey) as Hpey.
  pose proof (inject_Z_pos_lt (Z.pos my) ltac:(lia)) as Hmy.
  assert (Hy0 : ~ (SF2Q y == 0)%Q).
  { unfold y. cbn [SF2Q]. destruct sy; unfold sign_Q; nra. }
  destruct x as [sx|sx| |sx mx ex]; try discriminate Fx.
  - split; [reflexivity|]. apply exact_within.
    unfold SF64div, SFdiv, y. cbn [SF2Q]. field.
    repeat split; try lra. destruct sy; unfold sign_Q; lra.
  - unfold SF64div, SFdiv, y, SFdiv_core_binary.
    change (Zdigits2 (Z.pos mx)) with (Z.pos (digits2_pos mx)).
    change (Zdigits2 (Z.pos my)) with (Z.pos (digits2_pos my)).
    set (d1 := Z.pos (digits2_pos mx)). set (d2 := Z.pos (digits2_pos my)).
    set (e' := Z.min (fexp prec emax (d1 + ex - (d2 + ey))) (ex - ey)).
    set (s := ex - ey - e'). assert (Hs : 0 <= s) by (unfold s, e'; lia).
    set (N := Z.pos mx * 2 ^ s).
    assert (HN : match s with
                 | Z.pos _ => Z.shiftl (Z.pos mx) s
                 | 0 => Z.pos mx
                 | Z.neg _ => 0
                 end = N) by (apply shift_case; exact Hs).
    rewrite HN.
    assert (Hp : 0 < 2 ^ s) by (apply Z.pow_pos_nonneg; lia).
    assert (HNpos : 0 < N) by (unfold N; nia).
    destruct (Z.div_eucl N (Z.pos my)) as [q r] eqn:Hde.
    assert (Hq : q = N / Z.pos my) by (unfold Z.div; rewrite Hde; reflexivity).
    assert (Hr : r = N mod Z.pos my) by (unfold Z.modulo; rewrite Hde; reflexivity).
    rewrite Hq, Hr. clear q r Hde Hq Hr.
    rewrite (new_location_loc_of (Z.pos my) (N mod Z.pos my))
      by (try apply Z.mod_pos_bound; lia).
    set (D := Z.pos my) in *.
    (* the exact quotient *)
    assert (Hval : (SF2Q (S754_finite sx mx ex) / SF2Q (S754_finite sy my ey)
                    == sign_Q (xorb sx sy) * (inject_Z N / inject_Z D * pow2 e'))%Q).
    { cbn [SF2Q]. unfold N. rewrite inject_Z_mult, pow2_inject, sign_Q_xorb by lia.
      replace ex with (s + e' + ey) at 1 by (unfold s; lia).
      rewrite !pow2_add. fold D.
      pose proof (pow2_pos e'). pose proof (pow2_pos s).
      destruct sx, sy; unfold sign_Q; field; split; try lra. }
    assert (Hv0 : (0 <= inject_Z N / inject_Z D * pow2 e')%Q).
    { pose proof (pow2_pos e'). pose proof (inject_Z_pos_lt N HNpos).
      assert (0 < inject_Z N / inject_Z D)%Q by (apply Qlt_shift_div_l; lra).
      nra. }
    assert (Habs : (Qabs (SF2Q (S754_finite sx mx ex) / SF2Q (S754_finite sy my ey))
                    == inject_Z N / inject_Z D * pow2 e')%Q).
    { rewrite Hval, Qabs_sign_mult. now apply Qabs_pos. }
    fold y in Hmag. unfold y in Hmag. rewrite Habs in Hmag |- *. rewrite Hval.
    (* enough bits in the quotient *)
    simpl in Vx, Vy. apply Binary64.bounded_digits in Vx, Vy.
    fold d1 in Vx. fold d2 in Vy.
    destruct Vx as (dx1 & ex1 & dx2). destruct Vy as (dy1 & ey1 & dy2).
    assert (Hbits : e' <= fexp prec emax (Zdigits2 (N / D) + e')).
    { pose proof (Zdigits2_nonneg (N / D)) as Hdq.
      unfold fexp, SpecFloat.emin, prec, emax in *.
      destruct (Z_le_gt_dec e' (-1074)) as [|Hnorm]; [lia|].
      assert (He' : e' = d1 + ex - (d2 + ey) - 53) by (unfold e' in *; lia).
      assert (Hs' : s = 53 + d2 - d1) by (unfold s; lia).
      pose proof (Binary64.digits2_bounds mx) as [Lx _]. fold d1 in Lx.
      pose proof (Binary64.digits2_bounds my) as [_ Uy]. fold d2 in Uy. fold D in Uy.
      assert (Hq : 2 ^ 52 <= N / D).
      { apply Z.div_le_lower_bound; [lia|].
        assert (E : 2 ^ (d1 - 1) * 2 ^ s = 2 ^ 52 * 2 ^ d2)
          by (rewrite <- !Z.pow_add_r by lia; f_equal; lia).
        assert (0 < 2 ^ d2) by (apply Z.pow_pos_nonneg; lia).
        unfold N. nia. }
      assert (53 <= Zdigits2 (N / D)).
      { destruct (Z_lt_le_dec (Zdigits2 (N / D)) 53) as [Hlt|]; [|lia].
        pose proof (Zdigits2_bounds (N / D) ltac:(lia)) as [_ Uq].
        assert (2 ^ Zdigits2 (N / D) <= 2 ^ 52) by (apply Z.pow_le_mono_r; lia).
        lia. }
      lia. }
    destruct (round_aux_standard (xorb sx sy) N D e' ltac:(lia) ltac:(unfold D; lia)
                Hbits Hmag) as (Hf & _ & Herr).
    split; [exact Hf | exact Herr].
Qed.

(** ** Binary64 values *)

Lemma mul_standard (x y : float) :
  finite x = true -> finite y = true ->
  (Qabs (F2Q x * F2Q y) < pow2 1023)%Q ->
  finite (x * y) = true /\
  (Qabs (F2Q (x * y) - F2Q x * F2Q y) <= unit_roundoff * Qabs (F2Q x * F2Q y) + eta_min)%Q.
Proof.
  unfold finite, F2Q. rewrite mul_spec. intros Fx Fy Hmag.
  exact (SFmul_standard _ _ (Prim2SF_valid x) (Prim2SF_valid y) Fx Fy Hmag).
Qed.

Lemma sub_standard (x y : float) :
  finite x = true -> finite y = true ->
  (Qabs (F2Q x - F2Q y) < pow2 1023)%Q ->
  finite (x - y) = true /\
  (Qabs (F2Q (x - y) - (F2Q x - F2Q y)) <= unit_roundoff * Qabs (F2Q x - F2Q y) + eta_min)%Q.
Proof.
  unfold finite, F2Q. rewrite sub_spec. intros Fx Fy Hmag.
  exact (SFsub_standard _ _ (Prim2SF_valid x) (Prim2SF_valid y) Fx Fy Hmag).
Qed.

Lemma div_standard (x y : float) :
  finite x = true -> finite y = true -> ~ (F2Q y == 0)%Q ->
  (Qabs (F2Q x / F2Q y) < pow2 1023)%Q ->
  finite (x / y) = true /\
  (Qabs (F2Q (x / y) - F2Q x / F2Q y) <= unit_roundoff * Qabs (F2Q x / F2Q y) + eta_min)%Q.
Proof.
  unfold finite, F2Q. rewrite div_spec. intros Fx Fy Hy Hmag.
  pose proof (Prim2SF_valid y) as Vy.
  destruct (Prim2SF y) as [sy|sy| |sy my ey] eqn:Ey; try discriminate Fy.
  - exfalso. apply Hy. reflexivity.
  - exact (SFdiv_standard _ sy my ey (Prim2SF_valid x) Vy Fx Hmag).
Qed.

Lemma of_int_standard (n : Z) :
  (Qabs (inject_Z n) < pow2 1023)%Q ->
  finite (float_of_int n) = true /\
  (Qabs (F2Q (float_of_int n) - inject_Z n) <= unit_roundoff * Qabs (inject_Z n) + eta_min)%Q.
Proof.
  intro Hmag. unfold finite, F2Q, float_of_int.
  assert (E : (inject_Z n * pow2 0 == inject_Z n)%Q)
    by (change (pow2 0) with 1%Q; ring).
  rewrite <- E in Hmag.
  destruct (binary_normalize_standard n 0 Hmag) as (Hf & Hv & Herr).
  rewrite (Prim2SF_SF2Prim _ Hv). rewrite E in Herr. auto.
Qed.

(** ** Values converted without rounding *)

(** A mantissa that needs no rounding comes back as it is. *)
Lemma binary_round_exact (s : bool) (p : positive) (e : Z) :
  fexp prec emax (Z.pos (digits2_pos p) + e) <= e ->
  Z.pos (digits2_pos p) + e <= 1023 ->
  let r := binary_round prec emax s p e in
  SFfinite r = true /\ valid_binary r = true /\
  (SF2Q r == sign_Q s * (inject_Z (Z.pos p) * pow2 e))%Q.
Proof.
  intros HF Hmag r. unfold r, binary_round.
  set (F := fexp prec emax (Z.pos (digits2_pos p) + e)) in *.
  destruct (shl_align_spec p e F) as (mz & -> & Hmz).
  replace (Z.min e F) with F in * by lia.
  rewrite round_aux_exact_input.
  assert (Hd : Zdigits2 (Z.pos mz / 1) + F = Z.pos (digits2_pos p) + e).
  { rewrite Z.div_1_r, Hmz, Zdigits2_shift by lia.
    change (Zdigits2 (Z.pos p)) with (Z.pos (digits2_pos p)). lia. }
  assert (Het : fexp prec emax (Zdigits2 (Z.pos mz / 1) + F) = F)
    by (rewrite Hd; reflexivity).
  destruct (binary_round_aux_quotient s (Z.pos mz) 1 F ltac:(lia) ltac:(lia))
    as (m' & e' & Hr & Hm' & He' & Herr & Hcan).
  { cbv zeta. rewrite Het. lia. }
  { cbv zeta. rewrite Hd. exact Hmag. }
  cbv zeta in He', Herr. rewrite Het in He', Herr.
  rewrite Z.sub_diag, Z.pow_0_r, !Z.mul_1_r in Herr.
  assert (Heq : m' * 2 ^ (e' - F) = Z.pos mz) by lia.
  rewrite Hr.
  split; [now apply SFfinite_SF_of|]. split; [now apply valid_SF_of|].
  rewrite (SF2Q_SF_of s m' e' Hm').
  assert (E : (inject_Z m' * pow2 e' == inject_Z (Z.pos p) * pow2 e)%Q).
  { replace e' with (F + (e' - F)) by lia.
    rewrite pow2_add, <- (pow2_inject (e' - F)) by lia.
    setoid_replace (inject_Z m' * (pow2 F * inject_Z (2 ^ (e' - F))))%Q
      with (inject_Z m' * inject_Z (2 ^ (e' - F)) * pow2 F)%Q by ring.
    rewrite <- inject_Z_mult, Heq, Hmz, inject_Z_mult, pow2_inject by lia.
    rewrite <- Qmult_assoc, <- pow2_add. replace (e - F + F) with e by lia.
    reflexivity. }
  rewrite E. reflexivity.
Qed.

(** An integer of at most 53 bits is a float. *)
Lemma of_int_exact (n : Z) :
  0 <= n < 2 ^ 53 ->
  finite (float_of_int n) = true /\ (F2Q (float_of_int n) == inject_Z n)%Q.
Proof.
  intros [Hlo Hhi]. unfold finite, F2Q, float_of_int, binary_normalize.
  destruct n as [|p|p]; try lia.
  - rewrite Prim2SF_SF2Prim by reflexivity. split; reflexivity.
  - assert (Hd : Z.pos (digits2_pos p) <= 53)
      by (apply (Zdigits2_le (Z.pos p) 53); lia).
    destruct (binary_round_exact false p 0) as (Hf & Hv & Hval).
    { unfold fexp, SpecFloat.emin, prec, emax. lia. }
    { lia. }
    rewrite (Prim2SF_SF2Prim _ Hv). split; [exact Hf|].
    rewrite Hval. unfold sign_Q. change (pow2 0) with 1%Q. ring.
Qed.

(** ** The round trip of one coordinate *)

Local Open Scope Q_scope.

Lemma eta_min_small : eta_min <= 1 # 1267650600228229401496703205376.
Proof. unfold Qle. vm_compute. discriminate. Qed.

Lemma Qabs_bounds (a : Q) : - Qabs a <= a /\ a <= Qabs a.
Proof.
  split; [|apply Qle_Qabs].
  pose proof (Qle_Qabs (- a)) as H. rewrite Qabs_opp in H. lra.
Qed.

Lemma inv_half (W : Q) : 1 # 2 <= W -> 0 < / W /\ / W <= 2.
Proof.
  intro HW. assert (H0 : 0 < W) by lra. split.
  - now apply Qinv_lt_0_compat.
  - apply Qle_shift_inv_r; lra.
Qed.

(** Dividing an error bound by a scale of at least one half. *)
Lemma scaled_error (a b W : Q) :
  1 # 2 <= W ->
  Qabs (a - b) <= unit_roundoff * Qabs b + eta_min ->
  Qabs (a / W - b / W) <= unit_roundoff * Qabs (b / W) + 2 * eta_min.
Proof.
  intros HW Hab. destruct (inv_half W HW) as [Hi0 Hi2].
  pose proof eta_min_pos as He. pose proof unit_roundoff_pos as Hu.
  pose proof (Qabs_nonneg b) as Hb.
  unfold Qdiv. set (i := / W) in *.
  setoid_replace (a * i - b * i) with ((a - b) * i) by ring.
  rewrite !Qabs_Qmult, (Qabs_pos i) by lra.
  set (d := Qabs (a - b)) in *. set (B := Qabs b) in *.
  assert (H1 : d * i <= (unit_roundoff * B + eta_min) * i)
    by (apply Qmult_le_compat_r; lra).
  assert (H2 : eta_min * i <= eta_min * 2)
    by (rewrite !(Qmult_comm eta_min); apply Qmult_le_compat_r; lra).
  lra.
Qed.

Lemma Qabs_mul_le (a b A B : Q) :
  Qabs a <= A -> Qabs b <= B -> Qabs (a * b) <= A * B.
Proof.
  intros Ha Hb. rewrite Qabs_Qmult.
  apply Qmult_le_compat_nonneg; split;
    try apply Qabs_nonneg; assumption.
Qed.

Lemma Qabs_div_le (a W A : Q) :
  1 # 2 <= W -> Qabs a <= A -> Qabs (a / W) <= 2 * A.
Proof.
  intros HW Ha. destruct (inv_half W HW) as [Hi0 Hi2].
  unfold Qdiv. rewrite (Qmult_comm 2 A).
  apply Qabs_mul_le; [exact Ha|]. rewrite Qabs_pos; lra.
Qed.

(** Multiplying by a scale and dividing by it again. *)
Lemma chain_x (X W P X' : Q) :
  1 # 2 <= W ->
  Qabs (P - X * W) <= unit_roundoff * Qabs (X * W) + eta_min ->
  Qabs (X' - P / W) <= unit_roundoff * Qabs (P / W) + eta_min ->
  Qabs (X' - X) <= tolerance * (1 + Qabs X).
Proof.
  intros HW H1 H2.
  pose proof eta_min_pos as He. pose proof eta_min_small as He'.
  apply (scaled_error _ _ W HW) in H1.
  assert (E : X * W / W == X) by (field; lra).
  rewrite E in H1. clear E.
  set (c := P / W) in *.
  pose proof (Qabs_nonneg X) as HA. set (A := Qabs X) in *.
  apply Qabs_Qle_condition in H1.
  assert (HC : Qabs c <= A + (unit_roundoff * A + 2 * eta_min)).
  { apply Qabs_Qle_condition. destruct (Qabs_bounds X). fold A in H, H0.
    unfold unit_roundoff in *. lra. }
  pose proof (Qabs_nonneg c) as HC0. set (C := Qabs c) in *.
  apply Qabs_Qle_condition in H2.
  apply Qabs_Qle_condition. unfold unit_roundoff, tolerance in *. lra.
Qed.

(** Flipping against a scale, flipping back and dividing by the scale. *)
Lemma chain_y (Y H P S T Y' : Q) :
  1 # 2 <= H ->
  Qabs (P - Y * H) <= unit_roundoff * Qabs (Y * H) + eta_min ->
  Qabs (S - (H - P)) <= unit_roundoff * Qabs (H - P) + eta_min ->
  Qabs (T - (H - S)) <= unit_roundoff * Qabs (H - S) + eta_min ->
  Qabs (Y' - T / H) <= unit_roundoff * Qabs (T / H) + eta_min ->
  Qabs (Y' - Y) <= tolerance * (1 + Qabs Y).
Proof.
  intros HH H1 H2 H3 H4.
  pose proof eta_min_pos as He. pose proof eta_min_small as He'.
  apply (scaled_error _ _ H HH) in H1, H2, H3.
  assert (E1 : Y * H / H == Y) by (field; lra).
  assert (E2 : (H - P) / H == 1 - P / H) by (field; lra).
  assert (E3 : (H - S) / H == 1 - S / H) by (field; lra).
  rewrite E1 in H1. rewrite E2 in H2. rewrite E3 in H3. clear E1 E2 E3.
  set (p := P / H) in *. set (s := S / H) in *. set (t := T / H) in *.
  pose proof (Qabs_nonneg Y) as HA. destruct (Qabs_bounds Y) as [HY1 HY2].
  set (A := Qabs Y) in *.
  apply Qabs_Qle_condition in H1.
  assert (B2 : Qabs (1 - p) <= 1 + A + (unit_roundoff * A + 2 * eta_min))
    by (apply Qabs_Qle_condition; unfold unit_roundoff in *; lra).
  pose proof (Qabs_nonneg (1 - p)). set (b2 := Qabs (1 - p)) in *.
  apply Qabs_Qle_condition in H2.
  assert (B3 : Qabs (1 - s) <= A + (unit_roundoff * A + 2 * eta_min) + (unit_roundoff * b2 + 2 * eta_min))
    by (apply Qabs_Qle_condition; unfold unit_roundoff in *; lra).
  pose proof (Qabs_nonneg (1 - s)). set (b3 := Qabs (1 - s)) in *.
  apply Qabs_Qle_condition in H3.
  assert (B4 : Qabs t <= A + (unit_roundoff * A + 2 * eta_min) + (unit_roundoff * b2 + 2 * eta_min)
                         + (unit_roundoff * b3 + 2 * eta_min))
    by (apply Qabs_Qle_condition; unfold unit_roundoff in *; lra).
  pose proof (Qabs_nonneg t). set (b4 := Qabs t) in *.
  apply Qabs_Qle_condition in H4.
  apply Qabs_Qle_condition. unfold unit_roundoff, tolerance in *. lra.
Qed.

Lemma coord_max_pow2 : pow2 128 == coord_max.
Proof. reflexivity. Qed.

Lemma safe_level_lt : safe_level < pow2 1023.
Proof. unfold Qlt. vm_compute. reflexivity. Qed.

Lemma Qabs_near (a b r : Q) : Qabs (a - b) <= r -> Qabs a <= Qabs b + r.
Proof.
  intro H. apply Qabs_Qle_condition in H. destruct (Qabs_bounds b).
  apply Qabs_Qle_condition. lra.
Qed.

Lemma of_int_range (n : Z) :
  (0 < n < 2 ^ 63)%Z ->
  finite (float_of_int n) = true /\
  1 # 2 <= F2Q (float_of_int n) /\ F2Q (float_of_int n) <= scale_max.
Proof.
  intros [Hlo Hhi].
  assert (H1 : 1 <= inject_Z n)
    by (change 1 with (inject_Z 1); rewrite <- Zle_Qle; lia).
  assert (H2 : inject_Z n <= inject_Z (2 ^ 63)) by (rewrite <- Zle_Qle; lia).
  change (inject_Z (2 ^ 63)) with (9223372036854775808 # 1) in H2.
  assert (Habs : Qabs (inject_Z n) == inject_Z n) by (apply Qabs_pos; lra).
  assert (Hmag : Qabs (inject_Z n) < pow2 1023).
  { rewrite Habs. apply Qle_lt_trans with safe_level; [unfold safe_level; lra | exact safe_level_lt]. }
  destruct (of_int_standard n Hmag) as [Hf Herr].
  rewrite Habs in Herr. apply Qabs_Qle_condition in Herr.
  pose proof eta_min_small. pose proof eta_min_pos.
  split; [exact Hf|]. unfold unit_roundoff, scale_max in *. split; lra.
Qed.

(** [x * W / W] in binary64. *)
Lemma scale_unscale (x W : float) :
  finite x = true -> finite W = true ->
  1 # 2 <= F2Q W -> F2Q W <= scale_max ->
  Qabs (F2Q x) <= coord_max ->
  finite (x * W / W) = true /\
  Qabs (F2Q (x * W / W) - F2Q x) <= tolerance * (1 + Qabs (F2Q x)).
Proof.
  intros Fx FW HW1 HW2 HX.
  pose proof eta_min_small as He. pose proof eta_min_pos as He0.
  assert (HWabs : Qabs (F2Q W) <= scale_max)
    by (apply Qabs_Qle_condition; unfold scale_max in *; lra).
  pose proof (Qabs_mul_le _ _ _ _ HX HWabs) as Hprod.
  assert (M1 : Qabs (F2Q x * F2Q W) < pow2 1023).
  { apply Qle_lt_trans with safe_level; [|exact safe_level_lt].
    apply (Qle_trans _ _ _ Hprod). unfold Qle. vm_compute. discriminate. }
  destruct (mul_standard x W Fx FW M1) as [Fp Ep].
  pose proof (Qabs_near _ _ _ Ep) as HP.
  assert (HP' : Qabs (F2Q (x * W)) <= 3 * (coord_max * scale_max)).
  { pose proof (Qabs_nonneg (F2Q x * F2Q W)).
    set (q := Qabs (F2Q x * F2Q W)) in *.
    unfold unit_roundoff, coord_max, scale_max in *. lra. }
  assert (M2 : Qabs (F2Q (x * W) / F2Q W) < pow2 1023).
  { apply Qle_lt_trans with safe_level; [|exact safe_level_lt].
    apply (Qle_trans _ _ _ (Qabs_div_le _ _ _ HW1 HP')).
    unfold Qle. vm_compute. discriminate. }
  assert (HW0 : ~ F2Q W == 0) by lra.
  destruct (div_standard (x * W) W Fp FW HW0 M2) as [Fd Ed].
  split; [exact Fd|].
  exact (chain_x (F2Q x) (F2Q W) (F2Q (x * W)) (F2Q (x * W / W)) HW1 Ep Ed).
Qed.

(** [(H - (H - y * H)) / H] in binary64. *)
Lemma flip_unflip (y H : float) :
  finite y = true -> finite H = true ->
  1 # 2 <= F2Q H -> F2Q H <= scale_max ->
  Qabs (F2Q y) <= coord_max ->
  finite ((H - (H - y * H)) / H) = true /\
  Qabs (F2Q ((H - (H - y * H)) / H) - F2Q y) <= tolerance * (1 + Qabs (F2Q y)).
Proof.
  intros Fy FH HH1 HH2 HY.
  pose proof eta_min_small as He. pose proof eta_min_pos as He0.
  assert (HHabs : Qabs (F2Q H) <= scale_max)
    by (apply Qabs_Qle_condition; unfold scale_max in *; lra).
  assert (HHabs' : Qabs (F2Q H) == F2Q H) by (apply Qabs_pos; lra).
  assert (Hcs : 0 < coord_max * scale_max) by reflexivity.
  set (M := coord_max * scale_max) in *.
  assert (HsM : scale_max <= M) by (unfold Qle; vm_compute; discriminate).
  pose proof (Qabs_mul_le _ _ _ _ HY HHabs) as Hprod. fold M in Hprod.
  (* p = y * H *)
  assert (M1 : Qabs (F2Q y * F2Q H) < pow2 1023).
  { apply Qle_lt_trans with safe_level; [|exact safe_level_lt].
    apply (Qle_trans _ _ _ Hprod). unfold Qle. vm_compute. discriminate. }
  destruct (mul_standard y H Fy FH M1) as [Fp Ep].
  assert (HP : Qabs (F2Q (y * H)) <= 3 * M).
  { pose proof (Qabs_near _ _ _ Ep). pose proof (Qabs_nonneg (F2Q y * F2Q H)).
    set (q := Qabs (F2Q y * F2Q H)) in *. unfold unit_roundoff in *. lra. }
  (* s = H - p *)
  assert (HS0 : Qabs (F2Q H - F2Q (y * H)) <= 4 * M).
  { apply Qabs_Qle_condition in HP. apply Qabs_Qle_condition. lra. }
  assert (M2 : Qabs (F2Q H - F2Q (y * H)) < pow2 1023).
  { apply Qle_lt_trans with safe_level; [|exact safe_level_lt].
    apply (Qle_trans _ _ _ HS0). unfold Qle. vm_compute. discriminate. }
  destruct (sub_standard H (y * H) FH Fp M2) as [Fs Es].
  assert (HS : Qabs (F2Q (H - y * H)) <= 9 * M).
  { pose proof (Qabs_near _ _ _ Es). pose proof (Qabs_nonneg (F2Q H - F2Q (y * H))).
    set (q := Qabs (F2Q H - F2Q (y * H))) in *. unfold unit_roundoff in *. lra. }
  (* t = H - s *)
  assert (HT0 : Qabs (F2Q H - F2Q (H - y * H)) <= 10 * M).
  { apply Qabs_Qle_condition in HS. apply Qabs_Qle_condition. lra. }
  assert (M3 : Qabs (F2Q H - F2Q (H - y * H)) < pow2 1023).
  { apply Qle_lt_trans with safe_level; [|exact safe_level_lt].
    apply (Qle_trans _ _ _ HT0). unfold Qle. vm_compute. discriminate. }
  destruct (sub_standard H (H - y * H) FH Fs M3) as [Ft Et].
  assert (HT : Qabs (F2Q (H - (H - y * H))) <= 21 * M).
  { pose proof (Qabs_near _ _ _ Et).
    pose proof (Qabs_nonneg (F2Q H - F2Q (H - y * H))).
    set (q := Qabs (F2Q H - F2Q (H - y * H))) in *. unfold unit_roundoff in *. lra. }
  (* y' = t / H *)
  assert (M4 : Qabs (F2Q (H - (H - y * H)) / F2Q H) < pow2 1023).
  { apply Qle_lt_trans with safe_level; [|exact safe_level_lt].
    apply (Qle_trans _ _ _ (Qabs_div_le _ _ _ HH1 HT)).
    unfold Qle. vm_compute. discriminate. }
  assert (HH0 : ~ F2Q H == 0) by lra.
  destruct (div_standard (H - (H - y * H)) H Ft FH HH0 M4) as [Fd Ed].
  split; [exact Fd|].
  exact (chain_y (F2Q y) (F2Q H) (F2Q (y * H)) (F2Q (H - y * H))
           (F2Q (H - (H - y * H))) (F2Q ((H - (H - y * H)) / H))
           HH1 Ep Es Et Ed).
Qed.

(** ** The mapping of one coordinate *)

(** [x * W] in binary64, against the exact product. *)
Lemma scale_accuracy (x W : float) :
  finite x = true -> finite W = true ->
  1 # 2 <= F2Q W -> F2Q W <= scale_max ->
  Qabs (F2Q x) <= coord_max ->
  finite (x * W) = true /\
  Qabs (F2Q (x * W) - F2Q x * F2Q W)
  <= unit_roundoff * Qabs (F2Q x * F2Q W) + eta_min.
Proof.
  intros Fx FW HW1 HW2 HX.
  assert (HWabs : Qabs (F2Q W) <= scale_max)
    by (apply Qabs_Qle_condition; unfold scale_max in *; lra).
  pose proof (Qabs_mul_le _ _ _ _ HX HWabs) as Hprod.
  apply (mul_standard x W Fx FW).
  apply Qle_lt_trans with safe_level; [|exact safe_level_lt].
  apply (Qle_trans _ _ _ Hprod). unfold Qle. vm_compute. discriminate.
Qed.

(** [H - y * H] in binary64, against the exact value: the product's
    rounding error is not scaled down when the difference cancels. *)
Lemma flip_accuracy (y H : float) :
  finite y = true -> finite H = true ->
  1 # 2 <= F2Q H -> F2Q H <= scale_max ->
  Qabs (F2Q y) <= coord_max ->
  finite (H - y * H) = true /\
  Qabs (F2Q (H - y * H) - (F2Q H - F2Q y * F2Q H))
  <= unit_roundoff * (Qabs (F2Q H - F2Q y * F2Q H) + 2 * Qabs (F2Q y * F2Q H))
     + 3 * eta_min.
Proof.
  intros Fy FH HH1 HH2 HY.
  pose proof eta_min_pos as He0.
  destruct (scale_accuracy y H Fy FH HH1 HH2 HY) as [Fp Ep].
  assert (HHabs : Qabs (F2Q H) <= scale_max)
    by (apply Qabs_Qle_condition; unfold scale_max in *; lra).
  pose proof (Qabs_mul_le _ _ _ _ HY HHabs) as Hprod.
  set (M := coord_max * scale_max) in *.
  assert (HM : M == 6277101735386680763835789423207666416102355444464034512896)
    by reflexivity.
  assert (HP : Qabs (F2Q (y * H)) <= 3 * M).
  { pose proof (Qabs_near _ _ _ Ep). pose proof (Qabs_nonneg (F2Q y * F2Q H)).
    pose proof eta_min_small.
    set (q := Qabs (F2Q y * F2Q H)) in *. unfold unit_roundoff in *. lra. }
  assert (HS0 : Qabs (F2Q H - F2Q (y * H)) <= 4 * M).
  { apply Qabs_Qle_condition in HP. apply Qabs_Qle_condition.
    unfold scale_max in *. lra. }
  assert (M2 : Qabs (F2Q H - F2Q (y * H)) < pow2 1023).
  { apply Qle_lt_trans with safe_level; [|exact safe_level_lt].
    apply (Qle_trans _ _ _ HS0). unfold Qle. vm_compute. discriminate. }
  destruct (sub_standard H (y * H) FH Fp M2) as [Fs Es].
  split; [exact Fs|].
  set (s := F2Q (H - y * H)) in *. set (p := F2Q (y * H)) in *.
  set (e := F2Q y * F2Q H) in *. set (h := F2Q H) in *.
  assert (Hb : Qabs (h - p) <= Qabs (h - e) + (unit_roundoff * Qabs e + eta_min)).
  { apply Qabs_Qle_condition in Ep. destruct (Qabs_bounds (h - e)).
    apply Qabs_Qle_condition. lra. }
  pose proof (Qabs_nonneg e) as He1.
  set (b := Qabs (h - p)) in *. set (c := Qabs (h - e)) in *.
  set (q := Qabs e) in *.
  apply Qabs_Qle_condition in Ep. apply Qabs_Qle_condition in Es.
  apply Qabs_Qle_condition. unfold unit_roundoff in *. lra.
Qed.

(** A frame dimension of at most 53 bits is converted without rounding. *)
Lemma of_int_dimension (n : Z) :
  (0 < n < 2 ^ 53)%Z ->
  finite (float_of_int n) = true /\
  (F2Q (float_of_int n) == inject_Z n)%Q /\
  (1 # 2 <= F2Q (float_of_int n))%Q /\ (F2Q (float_of_int n) <= scale_max)%Q.
Proof.
  intros Hn.
  destruct (of_int_exact n ltac:(lia)) as [Hf He].
  destruct (of_int_range n ltac:(lia)) as (_ & H1 & H2).
  auto.
Qed.

End Binary64Error.

(** * Invertibility of the mapping *)

(** C7.  The mapping is invertible to floating-point precision.  For a
    frame with [0 < w] and [0 < h] (below 2^63, as array shapes are) and
    finite coordinates of magnitude up to 2^128 (every finite 32-bit float),
    the inverse transform [x = posX / w], [y = (h - posY) / h],
    [z = posZ / w], computed in binary64 like the mapping itself, gives
    finite numbers that differ from the original coordinates by at most
    [2^-50 * (1 + |c|)]. *)
Theorem round_trip_within_precision (h w : Z) (lm : Landmark float) :
  0 < w < 2 ^ 63 -> 0 < h < 2 ^ 63 ->
  finite (lm_x lm) = true -> finite (lm_y lm) = true ->
  finite (lm_z lm) = true ->
  (Qabs (F2Q (lm_x lm)) <= pow2 128)%Q ->
  (Qabs (F2Q (lm_y lm)) <= pow2 128)%Q ->
  (Qabs (F2Q (lm_z lm)) <= pow2 128)%Q ->
  let back := round_trip h w lm in
  finite (lm_x back) = true /\ finite (lm_y back) = true /\
  finite (lm_z back) = true /\
  (Qabs (F2Q (lm_x back) - F2Q (lm_x lm))
   <= tolerance * (1 + Qabs (F2Q (lm_x lm))))%Q /\
  (Qabs (F2Q (lm_y back) - F2Q (lm_y lm))
   <= tolerance * (1 + Qabs (F2Q (lm_y lm))))%Q /\
  (Qabs (F2Q (lm_z back) - F2Q (lm_z lm))
   <= tolerance * (1 + Qabs (F2Q (lm_z lm))))%Q.
Proof.
  intros Hw Hh Fx Fy Fz Bx By Bz back.
  rewrite Binary64Error.coord_max_pow2 in Bx, By, Bz.
  destruct (Binary64Error.of_int_range w Hw) as (FW & W1 & W2).
  destruct (Binary64Error.of_int_range h Hh) as (FH & H1 & H2).
  destruct (Binary64Error.scale_unscale (lm_x lm) (float_of_int w) Fx FW W1 W2 Bx) as [Fx' Ex].
  destruct (Binary64Error.flip_unflip (lm_y lm) (float_of_int h) Fy FH H1 H2 By) as [Fy' Ey].
  destruct (Binary64Error.scale_unscale (lm_z lm) (float_of_int w) Fz FW W1 W2 Bz) as [Fz' Ez].
  unfold back. repeat split; assumption.
Qed.

(** At the top edge of a 1280 x 720 frame the recovered [y] is 0.0 for
    an original of 2^-60: not the same float, and within the tolerance. *)
Lemma round_trip_within_precision_witness :
  lm_y (round_trip 720 1280 top_edge_landmark) = 0%float /\
  (Qabs (F2Q 0 - F2Q 0x1p-60)
   <= tolerance * (1 + Qabs (F2Q 0x1p-60)))%Q.
Proof.
  split; [vm_compute; reflexivity|].
  assert (Hb : forall c : float,
             (Qabs (F2Q c) ?= pow2 128)%Q <> Gt -> (Qabs (F2Q c) <= pow2 128)%Q)
    by (intros c H; exact H).
  refine (proj1 (proj2 (proj2 (proj2 (proj2
           (round_trip_within_precision 720 1280 top_edge_landmark
              _ _ _ _ _ _ _ _)))))).
  - lia.
  - lia.
  - vm_compute; reflexivity.
  - vm_compute; reflexivity.
  - vm_compute; reflexivity.
  - apply Hb. vm_compute. discriminate.
  - apply Hb. vm_compute. discriminate.
  - apply Hb. vm_compute. discriminate.
Defined.

(** * Accuracy of the mapping *)

(** X10.  The mapped coordinates are accurate in binary64.  For a frame of
    [0 < w, h < 2^53] pixels and finite landmark coordinates of magnitude
    up to [2^128], [posX], [posY] and [posZ] are finite; [posX] and
    [posZ] are within one rounding ([2^-53] relative, [2^-1075] absolute)
    of the exact products [x * w] and [z * w]; [posY] is within
    [2^-53 * (|h - y*h| + 2 * |y*h|) + 3 * 2^-1075] of the exact
    [h - y*h]. *)
Theorem mapped_point_accuracy (h w : Z) (lm : Landmark float) :
  0 < w < 2 ^ 53 -> 0 < h < 2 ^ 53 ->
  finite (lm_x lm) = true -> finite (lm_y lm) = true ->
  finite (lm_z lm) = true ->
  (Qabs (F2Q (lm_x lm)) <= pow2 128)%Q ->
  (Qabs (F2Q (lm_y lm)) <= pow2 128)%Q ->
  (Qabs (F2Q (lm_z lm)) <= pow2 128)%Q ->
  finite (posX lm w) = true /\ finite (posY lm h) = true /\
  finite (posZ lm w) = true /\
  (Qabs (F2Q (posX lm w) - F2Q (lm_x lm) * inject_Z w)
   <= unit_roundoff * Qabs (F2Q (lm_x lm) * inject_Z w) + eta_min)%Q /\
  (Qabs (F2Q (posY lm h) - (inject_Z h - F2Q (lm_y lm) * inject_Z h))
   <= unit_roundoff * (Qabs (inject_Z h - F2Q (lm_y lm) * inject_Z h)
                       + 2 * Qabs (F2Q (lm_y lm) * inject_Z h))
      + 3 * eta_min)%Q /\
  (Qabs (F2Q (posZ lm w) - F2Q (lm_z lm) * inject_Z w)
   <= unit_roundoff * Qabs (F2Q (lm_z lm) * inject_Z w) + eta_min)%Q.
Proof.
  intros Hw Hh Fx Fy Fz Bx By Bz.
  rewrite Binary64Error.coord_max_pow2 in Bx, By, Bz.
  destruct (Binary64Error.of_int_dimension w Hw) as (FW & EW & W1 & W2).
  destruct (Binary64Error.of_int_dimension h Hh) as (FH & EH & H1 & H2).
  destruct (Binary64Error.scale_accuracy (lm_x lm) (float_of_int w) Fx FW W1 W2 Bx) as [Fx' Ex].
  destruct (Binary64Error.flip_accuracy (lm_y lm) (float_of_int h) Fy FH H1 H2 By) as [Fy' Ey].
  destruct (Binary64Error.scale_accuracy (lm_z lm) (float_of_int w) Fz FW W1 W2 Bz) as [Fz' Ez].
  rewrite EW in Ex, Ez. rewrite EH in Ey.
  unfold posX, posY, posZ. repeat split; assumption.
Qed.

(** The centre of a 1280 x 720 frame. *)
Lemma mapped_point_accuracy_witness :
  finite (posY centre_landmark 720) = true /\
  (Qabs (F2Q (posY centre_landmark 720)
         - (inject_Z 720 - F2Q (lm_y centre_landmark) * inject_Z 720))
   <= unit_roundoff * (Qabs (inject_Z 720 - F2Q (lm_y centre_landmark) * inject_Z 720)
                       + 2 * Qabs (F2Q (lm_y centre_landmark) * inject_Z 720))
      + 3 * eta_min)%Q.
Proof.
  assert (Hb : forall c : float,
             (Qabs (F2Q c) ?= pow2 128)%Q <> Gt -> (Qabs (F2Q c) <= pow2 128)%Q)
    by (intros c H; exact H).
  refine ((fun H' => conj (proj1 (proj2 H')) (proj1 (proj2 (proj2 (proj2 (proj2 H'))))))
            (mapped_point_accuracy 720 1280 centre_landmark _ _ _ _ _ _ _ _)).
  - lia.
  - lia.
  - vm_compute; reflexivity.
  - vm_compute; reflexivity.
  - vm_compute; reflexivity.
  - apply Hb. vm_compute. discriminate.
  - apply Hb. vm_compute. discriminate.
  - apply Hb. vm_compute. discriminate.
Defined.
